(** * TrustFactor side panel (src/main.tsx): aggregation, batch analysis,
      message listener and injection handler.

    The panel is a React component.  Its logic is embedded as follows.
    - JavaScript numbers are IEEE-754 binary64 values.  [Number] models
      them as exact rationals together with NaN and the two infinities;
      every arithmetic operation rounds its exact result to the nearest
      binary64 value (ties to even), which is what the engine does.
    - The [Results] object is an association list in property order, as
      [Object.values] enumerates it.
    - The asynchronous functions are resumptions: a tree of state updates
      and of suspension points ([await]) whose continuation receives what
      the awaited promise settled to.
    - The component state is a record; the hooks' setters are its updates. *)

From Stdlib Require Import ZArith QArith Qround Qpower Qabs Lia Lqa SpecFloat Ascii.
From stdpp Require Import base list strings pretty.

Local Open Scope Z_scope.

(** ** JavaScript numbers *)

Module Number.

(** A number value.  The sign of zero is not modelled: none of the modelled
    operations lets it be observed. *)
Inductive number : Type :=
  | NaN
  | Infinity (negative : bool)
  | Finite (x : Q).

Definition pow2 (e : Z) : Q := Qpower 2 e.

(** Nearest integer to [y], ties to the even one. *)
Definition round_half_even (y : Q) : Z :=
  let q := Qfloor y in
  match Qcompare (y - inject_Z q) (1 # 2) with
  | Lt => q
  | Gt => q + 1
  | Eq => if Z.even q then q else q + 1
  end.

(** [ilog2 x] is the binary exponent of a positive [x]:
    [2^(ilog2 x) <= x < 2^(ilog2 x + 1)]. *)
Definition ilog2 (x : Q) : Z :=
  let l := Z.log2 (Qnum x) - Z.log2 (Zpos (Qden x)) in
  if Qle_bool (pow2 l) x then l else l - 1.

(** binary64: 53 bits of precision, least exponent of the last place
    -1074, overflow threshold 2^1024. *)
Definition prec : Z := 53.
Definition emin : Z := -1074.
Definition emax : Z := 1024.

(** Exponent of the unit in the last place of a positive [x]. *)
Definition ulp_exp (x : Q) : Z := Z.max (ilog2 x - (prec - 1)) emin.

(** Rounding of a positive rational to binary64. *)
Definition round_pos (x : Q) : number :=
  let e := ulp_exp x in
  let y := (inject_Z (round_half_even (x / pow2 e)) * pow2 e)%Q in
  if Qle_bool (pow2 emax) y then Infinity false else Finite y.

Definition neg (n : number) : number :=
  match n with
  | NaN => NaN
  | Infinity s => Infinity (negb s)
  | Finite x => Finite (- x)
  end.

(** Rounding of any rational to binary64 (round to nearest, ties to even). *)
Definition fl (x : Q) : number :=
  let r := Qred x in
  match Qnum r with
  | Z0 => Finite 0
  | Zpos _ => round_pos r
  | Zneg _ => neg (round_pos (- r))
  end.

Definition of_Z (z : Z) : number := fl (inject_Z z).
Definition of_nat (n : nat) : number := of_Z (Z.of_nat n).

Definition Qsign_neg (x : Q) : bool := (Qnum x <? 0)%Z.
Definition Qis_zero (x : Q) : bool := (Qnum x =? 0)%Z.

(** [a + b] *)
Definition add (a b : number) : number :=
  match a, b with
  | NaN, _ | _, NaN => NaN
  | Infinity s, Infinity t => if Bool.eqb s t then Infinity s else NaN
  | Infinity s, Finite _ | Finite _, Infinity s => Infinity s
  | Finite x, Finite y => fl (x + y)
  end.

(** [a * b] *)
Definition mul (a b : number) : number :=
  match a, b with
  | NaN, _ | _, NaN => NaN
  | Infinity s, Infinity t => Infinity (xorb s t)
  | Infinity s, Finite y | Finite y, Infinity s =>
      if Qis_zero y then NaN else Infinity (xorb s (Qsign_neg y))
  | Finite x, Finite y => fl (x * y)
  end.

(** [a / b]; a zero divisor is taken as +0. *)
Definition div (a b : number) : number :=
  match a, b with
  | NaN, _ | _, NaN => NaN
  | Infinity _, Infinity _ => NaN
  | Infinity s, Finite y => Infinity (xorb s (Qsign_neg y))
  | Finite _, Infinity _ => Finite 0
  | Finite x, Finite y =>
      if Qis_zero y then
        if Qis_zero x then NaN else Infinity (Qsign_neg x)
      else fl (x / y)
  end.

(** [Math.round]: the nearest integer, ties towards +Infinity. *)
Definition Math_round (a : number) : number :=
  match a with
  | Finite x => Finite (inject_Z (Qfloor (x + (1 # 2))))
  | _ => a
  end.

(** [a <= b] *)
Definition le (a b : number) : bool :=
  match a, b with
  | NaN, _ | _, NaN => false
  | Infinity true, _ => true
  | _, Infinity false => true
  | Infinity false, _ => false
  | _, Infinity true => false
  | Finite x, Finite y => Qle_bool x y
  end.

End Number.

Import Number.


Local Open Scope string_scope.
Local Open Scope Z_scope.

(** ** Data model (the interfaces of main.tsx) *)

Inductive LinkType : Type := policy | terms.

Record LinkData : Type := {
  href : string;
  text : string;
  type : LinkType;
  pageTitle : option string
}.

Record ContentScriptMessage : Type := {
  action : string;
  message_links : list LinkData
}.

Inductive InjectionStatus : Type := success | failure.

Record InjectionResponse : Type := {
  status : InjectionStatus;
  response_error : option string
}.

Record ScoreData : Type := {
  quotes : list string;
  score : number
}.

(** [Record<string, ScoreData>]: the properties in enumeration order. *)
Record Results : Type := {
  scores : list (string * ScoreData)
}.

Record Metadata : Type := {
  risk_percentage : number;
  risk_level : string
}.

Record ApiResponse : Type := {
  api_scores : Results;
  metadata : Metadata
}.

(** An element of [linksWithAnalysis]: either [link] itself or
    [{...link, analysis}]. *)
Record AnalysedLink : Type := {
  link : LinkData;
  analysis : option ApiResponse
}.

(** What a [throw] carries, as far as [err instanceof Error] and
    [err.message] see it. *)
Inductive Thrown : Type :=
  | Error (message : string)
  | NotAnError.

(** How a call, or an awaited promise, ends. *)
Inductive Completion (A : Type) : Type :=
  | Returns (v : A)
  | Throws (e : Thrown).
Arguments Returns {A} v.
Arguments Throws {A} e.

Definition Object_values {A : Type} (o : list (string * A)) : list A := o.*2.

(** ** calculateTotalScore (main.tsx, lines 83-90) *)

Definition calculateTotalScore (results : Results) : number :=
  let scores := Object_values (scores results) in
  let totalScores :=
    fold_left (fun sum scoreData => add sum (score scoreData)) scores (Finite 0) in
  let maxPossibleScore := mul (of_nat (length scores)) (Finite 5) in
  let percentageScore := mul (div totalScores maxPossibleScore) (Finite 100) in
  Math_round percentageScore.

(** The integer a score holds, when it holds one. *)
Definition score_integer (sd : ScoreData) : option Z :=
  match score sd with
  | Finite q => if Qeq_bool q (inject_Z (Qfloor q)) then Some (Qfloor q) else None
  | _ => None
  end.

(** The data contract of a category result: an integer score in [0,5]. *)
Definition score_in_range (sd : ScoreData) : bool :=
  match score_integer sd with
  | Some k => (0 <=? k)%Z && (k <=? 5)%Z
  | None => false
  end.

Definition sum_scores (l : list ScoreData) : Z :=
  foldr (fun sd acc => default 0 (score_integer sd) + acc) 0 l.

(** The percentage as the specification words it,
    round(100 * sum / (5 * count)), computed exactly; a half is rounded
    up, as [Math.round] does. *)
Definition exact_percentage (sum count : Z) : Z :=
  Qfloor (inject_Z (100 * sum) / inject_Z (5 * count) + (1 # 2)).

(** The class of the score heading (lines 258-259). *)
Definition scoreClass (p : number) : string :=
  if le p (Finite 40) then "text-red-500"
  else if le p (Finite 80) then "text-blue-600"
  else "text-purple-500".

(** ** Component state (lines 104-127) *)

Record Panel : Type := {
  links : list AnalysedLink;
  isInjecting : bool;
  error : option string;
  results : Results
}.

Definition example_quotes : list string := ["exact quote 1"; "exact quote 2"].

Definition initial_results : Results :=
  {| scores :=
       [ ("account_control", {| quotes := example_quotes; score := Finite 3 |});
         ("data_collection", {| quotes := example_quotes; score := Finite 2 |});
         ("privacy_info", {| quotes := example_quotes; score := Finite 4 |});
         ("account_testing", {| quotes := example_quotes; score := Finite 5 |}) ] |}.

Definition initial_panel : Panel :=
  {| links := []; isInjecting := false; error := None; results := initial_results |}.

(** The acknowledgement of a notification. *)
Record Ack : Type := { farewell : string }.

(** What a handler does to the outside: the three setters the component
    destructures (there is no setter for [results]), the response callback
    and the console. *)
Inductive Effect : Type :=
  | setLinks (l : list AnalysedLink)
  | setIsInjecting (b : bool)
  | setError (e : option string)
  | sendResponse (r : Ack)
  | console_log (s : string)
  | console_error (s : string).

Definition apply_effect (e : Effect) (s : Panel) : Panel :=
  match e with
  | setLinks l =>
      {| links := l; isInjecting := isInjecting s; error := error s; results := results s |}
  | setIsInjecting b =>
      {| links := links s; isInjecting := b; error := error s; results := results s |}
  | setError e =>
      {| links := links s; isInjecting := isInjecting s; error := e; results := results s |}
  | sendResponse _ | console_log _ | console_error _ => s
  end.

(** What the score heading shows: nothing while no link is displayed
    (line 252), else the score and its class. *)
Definition render_score (s : Panel) : option (number * string) :=
  match links s with
  | [] => None
  | _ :: _ =>
      Some (calculateTotalScore (results s), scoreClass (calculateTotalScore (results s)))
  end.

(** ** fetchAnalysis (lines 131-150) *)

(** What [fetch] resolved to: the [ok] flag and what [response.json()]
    settles to. *)
Record Response : Type := {
  ok : bool;
  json : Completion ApiResponse
}.

Definition fetchAnalysis (fetched : Completion Response) : Completion ApiResponse :=
  match fetched with
  | Returns response =>
      if negb (ok response) then Throws (Error "Failed to fetch analysis")
      else json response
  | Throws e => Throws e
  end.

(** ** The per-link task and Promise.all (lines 161-171) *)

(** [{...link, analysis}]: the own properties of [link] are copied one by
    one into a new object, then [analysis] is added. *)
Definition spread_with_analysis (l : LinkData) (a : ApiResponse) : AnalysedLink :=
  {| link := {| href := href l; text := text l; type := type l;
                pageTitle := pageTitle l |};
     analysis := Some a |}.

Definition as_is (l : LinkData) : AnalysedLink :=
  {| link := l; analysis := None |}.

(** The body of the arrow passed to [map]; [fetched] is what the fetch for
    this link settles to.  The console output of the two catch blocks is
    not recorded. *)
Definition analyseLink (l : LinkData) (fetched : Completion Response)
  : Completion AnalysedLink :=
  match fetchAnalysis fetched with
  | Returns a => Returns (spread_with_analysis l a)
  | Throws _ => Returns (as_is l)
  end.

Definition has_analysis (e : AnalysedLink) : bool :=
  match analysis e with
  | Some _ => true
  | None => false
  end.

Definition fetch_succeeds (fetched : Completion Response) : bool :=
  match fetchAnalysis fetched with
  | Returns _ => true
  | Throws _ => false
  end.

(** [Promise.all]: the promises settle in the order [order] (indices into
    [promises]); a fulfilment is stored in the slot of its index, the
    first rejection rejects the whole. *)
Fixpoint Promise_all_settle {A : Type} (order : list nat)
    (promises : list (Completion A)) (values : list (option A))
  : Completion (list (option A)) :=
  match order with
  | [] => Returns values
  | i :: rest =>
      match promises !! i with
      | Some (Returns v) => Promise_all_settle rest promises (<[i := Some v]> values)
      | Some (Throws e) => Throws e
      | None => Promise_all_settle rest promises values
      end
  end.

Fixpoint all_filled {A : Type} (values : list (option A)) : option (list A) :=
  match values with
  | [] => Some []
  | None :: _ => None
  | Some v :: rest =>
      match all_filled rest with
      | Some vs => Some (v :: vs)
      | None => None
      end
  end.

(** [None]: still pending once every settlement in [order] has been seen. *)
Definition Promise_all {A : Type} (order : list nat) (promises : list (Completion A))
  : option (Completion (list A)) :=
  match Promise_all_settle order promises (replicate (length promises) None) with
  | Throws e => Some (Throws e)
  | Returns values =>
      match all_filled values with
      | Some vs => Some (Returns vs)
      | None => None
      end
  end.

(** The promises [message.links.map(async (link) => ...)] creates, given
    what each link's fetch settles to. *)
Definition link_promises (ls : list LinkData) (fetches : list (Completion Response))
  : list (Completion AnalysedLink) :=
  zip_with analyseLink ls fetches.

(** ** Asynchronous handlers *)

(** An async function as a resumption: it performs effects until it
    finishes or suspends at an [await]; the continuation takes what the
    awaited promise settled to. *)
Inductive Async : Type :=
  | Done
  | Rejected (e : Thrown)
  | Perform (e : Effect) (k : Async)
  | AwaitAll (batch : list LinkData) (k : Completion (list AnalysedLink) -> Async)
  | AwaitSendMessage (k : Completion (option InjectionResponse) -> Async).

(** messageListener (lines 154-176).  [messageListener_resume] is the
    part after [await Promise.all(...)]: a rejection of the awaited promise
    would leave the listener by an exception, before any setter or
    response. *)
Definition messageListener_resume (settled : Completion (list AnalysedLink)) : Async :=
  match settled with
  | Returns linksWithAnalysis =>
      Perform (setLinks linksWithAnalysis)
        (Perform (setError None)
           (Perform (sendResponse {| farewell := "goodbye" |}) Done))
  | Throws e => Rejected e
  end.

Definition messageListener (message : ContentScriptMessage) : Async :=
  if String.eqb (action message) "sendLinks" then
    AwaitAll (message_links message) messageListener_resume
  else Perform (sendResponse {| farewell := "goodbye" |}) Done.

(** injectScript (lines 185-207) *)
Definition injection_failure_message (response : option InjectionResponse) : string :=
  match response with
  | Some {| response_error := Some e |} =>
      if String.eqb e "" then "Failed to inject content script" else e
  | _ => "Failed to inject content script"
  end.

Definition injectScript_finally : Async := Perform (setIsInjecting false) Done.

Definition injectScript_catch (err : Thrown) : Async :=
  let errorMessage :=
    match err with
    | Error message => message
    | NotAnError => "Unknown error occurred"
    end in
  Perform (console_error ("Injection error: " ++ errorMessage))
    (Perform (setError (Some errorMessage)) injectScript_finally).

Definition response_succeeded (response : option InjectionResponse) : bool :=
  match response with
  | Some {| status := success |} => true
  | _ => false
  end.

Definition injectScript_resume (settled : Completion (option InjectionResponse)) : Async :=
  match settled with
  | Returns response =>
      if response_succeeded response then
        Perform (console_log "Content script injected successfully")
          injectScript_finally
      else injectScript_catch (Error (injection_failure_message response))
  | Throws err => injectScript_catch err
  end.

Definition injectScript : Async :=
  Perform (setIsInjecting true)
    (Perform (setError None) (AwaitSendMessage injectScript_resume)).

(** ** The event loop *)

(** The effects up to the first suspension, and what is left. *)
Fixpoint advance (p : Async) : list Effect * Async :=
  match p with
  | Perform e k => let '(es, p') := advance k in (e :: es, p')
  | _ => ([], p)
  end.

Definition apply_effects (es : list Effect) (s : Panel) : Panel :=
  fold_left (fun s e => apply_effect e s) es s.

(** A configuration: the component state, every effect performed so far
    (oldest first) and the handlers suspended at an [await]. *)
Record Config : Type := {
  panel : Panel;
  history : list Effect;
  suspended : list Async
}.

Definition initial_config : Config :=
  {| panel := initial_panel; history := []; suspended := [] |}.

(** Runs [p] up to its next suspension inside configuration [c], whose
    suspended handlers are [others]. *)
Definition resume (p : Async) (c : Config) (others : list Async) : Config :=
  let '(es, p') := advance p in
  {| panel := apply_effects es (panel c);
     history := history c ++ es;
     suspended :=
       match p' with
       | AwaitAll _ _ | AwaitSendMessage _ => others ++ [p']
       | _ => others
       end |}.

(** One step of the event loop: a notification arrives, the scan button
    is clicked, or an awaited promise settles.  The click carries no
    condition on [isInjecting]: the button's [disabled] attribute is that
    of the last committed render, which lags behind the state the setters
    have produced, so a click can still arrive once [isInjecting] has been
    set; [injectScript] itself tests nothing. *)
Inductive step : Config -> Config -> Prop :=
  | step_notification (c : Config) (message : ContentScriptMessage) :
      step c (resume (messageListener message) c (suspended c))
  | step_click (c : Config) :
      step c (resume injectScript c (suspended c))
  | step_batch_settled (c : Config) (i : nat) (batch : list LinkData)
      (k : Completion (list AnalysedLink) -> Async)
      (fetches : list (Completion Response)) (order : list nat)
      (settled : Completion (list AnalysedLink)) :
      suspended c !! i = Some (AwaitAll batch k) ->
      length fetches = length batch ->
      Promise_all order (link_promises batch fetches) = Some settled ->
      step c (resume (k settled) c (delete i (suspended c)))
  | step_message_settled (c : Config) (i : nat)
      (k : Completion (option InjectionResponse) -> Async)
      (settled : Completion (option InjectionResponse)) :
      suspended c !! i = Some (AwaitSendMessage k) ->
      step c (resume (k settled) c (delete i (suspended c))).

Inductive reachable : Config -> Prop :=
  | reachable_initial : reachable initial_config
  | reachable_step (c c' : Config) : reachable c -> step c c' -> reachable c'.

(** One handler run from start to end with nothing interleaved; the
    settlement tells what each awaited promise settles to. *)
Record Settlement : Type := {
  fetches : list (Completion Response);
  order : list nat;
  sendMessage : Completion (option InjectionResponse)
}.

Inductive Outcome : Type :=
  | Fulfilled
  | RejectedWith (e : Thrown)
  | Pending.

Fixpoint run (w : Settlement) (p : Async) : list Effect * Outcome :=
  match p with
  | Done => ([], Fulfilled)
  | Rejected e => ([], RejectedWith e)
  | Perform e k => let '(es, r) := run w k in (e :: es, r)
  | AwaitAll batch k =>
      match Promise_all (order w) (link_promises batch (fetches w)) with
      | Some settled => run w (k settled)
      | None => ([], Pending)
      end
  | AwaitSendMessage k => run w (k (sendMessage w))
  end.

(** The state a handler leaves behind when it runs from [s]. *)
Definition run_from (w : Settlement) (p : Async) (s : Panel) : Panel :=
  apply_effects (run w p).1 s.

(** The aggregation input as the specification words it: the union of the
    category maps of the links whose analysis succeeded. *)
Definition successful_category_maps (entries : list AnalysedLink) : Results :=
  {| scores :=
       flat_map (fun e =>
                   match analysis e with
                   | Some a => scores (api_scores a)
                   | None => []
                   end) entries |}.

(** ** Concrete inputs used below *)

(** The scenario of the specification: two links, the first analysis
    returns two categories, the second fetch fails; the second fetch
    settles first. *)
Definition tos_link : LinkData :=
  {| href := "https://x.com/tos"; text := "Terms"; type := terms; pageTitle := None |}.

Definition priv_link : LinkData :=
  {| href := "https://x.com/priv"; text := "Privacy"; type := policy;
     pageTitle := Some "Privacy Policy" |}.

Definition scenario_message : ContentScriptMessage :=
  {| action := "sendLinks"; message_links := [tos_link; priv_link] |}.

Definition scenario_analysis : ApiResponse :=
  {| api_scores :=
       {| scores :=
            [ ("account_control", {| quotes := ["q1"]; score := Finite 3 |});
              ("data_collection", {| quotes := ["q2"]; score := Finite 2 |}) ] |};
     metadata := {| risk_percentage := Finite 50; risk_level := "moderate" |} |}.

Definition scenario_settlement : Settlement :=
  {| fetches := [ Returns {| ok := true; json := Returns scenario_analysis |};
                  Throws (Error "Failed to fetch") ];
     order := [1%nat; 0%nat];
     sendMessage := Returns (Some {| status := success; response_error := None |}) |}.

(** The same batch when the second fetch never settles. *)
Definition stalled_settlement : Settlement :=
  {| fetches := fetches scenario_settlement;
     order := [0%nat];
     sendMessage := sendMessage scenario_settlement |}.

(** Eight categories whose scores sum to 23: the exact percentage is 57.5. *)
Definition eight_categories : Results :=
  {| scores :=
       map (fun '(k, n) => (k, {| quotes := []; score := Finite (inject_Z n) |}))
         [ ("c1", 3); ("c2", 3); ("c3", 3); ("c4", 3);
           ("c5", 3); ("c6", 3); ("c7", 3); ("c8", 2) ] |}.

(** An analysis whose only score, 7, is outside [0,5]. *)
Definition out_of_range_analysis : ApiResponse :=
  {| api_scores :=
       {| scores := [ ("data_collection", {| quotes := []; score := Finite 7 |}) ] |};
     metadata := {| risk_percentage := Finite 0; risk_level := "low" |} |}.

Definition out_of_range_settlement : Settlement :=
  {| fetches := [ Returns {| ok := true; json := Returns out_of_range_analysis |} ];
     order := [0%nat];
     sendMessage := Returns None |}.

Definition single_link_message : ContentScriptMessage :=
  {| action := "sendLinks"; message_links := [tos_link] |}.

(** The configuration once the scenario's notification has been delivered
    and its batch has settled. *)
Definition notified_config : Config :=
  resume (messageListener scenario_message) initial_config (suspended initial_config).

Definition settle_first (w : Settlement) (c : Config) : Config :=
  match suspended c with
  | AwaitAll batch k :: rest =>
      match Promise_all (order w) (link_promises batch (fetches w)) with
      | Some settled => resume (k settled) c rest
      | None => c
      end
  | AwaitSendMessage k :: rest => resume (k (sendMessage w)) c rest
  | _ => c
  end.

Definition scenario_config : Config := settle_first scenario_settlement notified_config.

(** A settlement in which the command channel has no responder. *)
Definition no_responder_settlement : Settlement :=
  {| fetches := []; order := [];
     sendMessage :=
       Throws (Error "Could not establish connection. Receiving end does not exist.") |}.

(** ** The Standard Library's binary64, for comparison *)

(** [SpecFloat] holds the reference implementation of the IEEE-754
    operations on mantissa and exponent.  The value it computes is read
    back as a [number] in lowest terms. *)
Definition of_spec_float (f : spec_float) : number :=
  match f with
  | S754_zero _ => Finite 0
  | S754_infinity s => Infinity s
  | S754_nan => NaN
  | S754_finite s m e =>
      Finite (Qred ((if s then -1 else 1) * inject_Z (Zpos m) * pow2 e))
  end.

Definition lowest_terms (n : number) : number :=
  match n with
  | Finite x => Finite (Qred x)
  | _ => n
  end.

Definition spec_float_of_Z (z : Z) : spec_float := binary_normalize 53 1024 z 0 false.

(** [(s / (n * 5)) * 100] with the reference operations and with the
    operations of [Number]. *)
Definition reference_percentage (s n : Z) : number :=
  of_spec_float
    (SFmul 53 1024
       (SFdiv 53 1024 (spec_float_of_Z s)
          (SFmul 53 1024 (spec_float_of_Z n) (spec_float_of_Z 5)))
       (spec_float_of_Z 100)).

Definition model_percentage (s n : Z) : number :=
  lowest_terms (mul (div (of_Z s) (mul (of_Z n) (Finite 5))) (Finite 100)).

(** Every sum [s] of [n] scores in [0,5], for 1 to 16 categories. *)
Definition small_maps : list (Z * Z) :=
  flat_map (fun n => map (fun s => (Z.of_nat s, Z.of_nat n)) (seq 0 (5 * n + 1)))
    (seq 1 16).

(** ** The arithmetic of calculateTotalScore on an integer total *)

(** [Math.round((sum / (count * 5)) * 100)] on the numbers holding the
    integers [sum] and [count]. *)
Definition percentage_of (sum count : Z) : number :=
  Math_round (mul (div (of_Z sum) (mul (of_Z count) (Finite 5))) (Finite 100)).

(** ** ScoreAccordion (lines 43-81) *)

Definition Object_keys {A : Type} (o : list (string * A)) : list string := o.*1.

(** [o[key]]: the value of the property named [key]; [None] is undefined. *)
Fixpoint get_property {A : Type} (o : list (string * A)) (key : string) : option A :=
  match o with
  | [] => None
  | (k, v) :: rest => if String.eqb k key then Some v else get_property rest key
  end.

(** One [<li>] of the key references; [quote_text] is what stands between
    the quotation marks. *)
Record QuoteItem : Type := {
  quote_key : nat;
  quote_className : string;
  quote_text : string
}.

(** One category of the breakdown: the [key] of its block, the category
    and score of its heading ([{category}: {score}/5]), its quotes and the
    [value] of its progress bar. *)
Record CategoryRow : Type := {
  row_key : string;
  row_category : string;
  row_score : number;
  row_quotes : list QuoteItem;
  progress_value : number
}.

Definition quote_items (quotes : list string) : list QuoteItem :=
  imap (fun index quote =>
          {| quote_key := index;
             quote_className :=
               if negb (Nat.eqb index (length quotes - 1)) then "mb-4" else "";
             quote_text := quote |}) quotes.

(** The block rendered for one category, from the destructured
    [{ quotes, score }]. *)
Definition row_of (category : string) (sd : ScoreData) : CategoryRow :=
  {| row_key := category;
     row_category := category;
     row_score := score sd;
     row_quotes := quote_items (quotes sd);
     progress_value := mul (div (score sd) (Finite 5)) (Finite 100) |}.

(** The body of the arrow over [Object.keys(results.scores)]; destructuring
    an undefined property value throws, which is [None] here. *)
Definition category_row (results : Results) (category : string) : option CategoryRow :=
  match get_property (scores results) category with
  | Some sd => Some (row_of category sd)
  | None => None
  end.

Definition ScoreAccordion (results : Results) : option (list CategoryRow) :=
  mapM (category_row results) (Object_keys (scores results)).

(** ** The rest of what Sidebar renders (lines 209-317) *)

(** getLinkText (lines 210-212) *)
Definition getLinkText (t : LinkType) : string :=
  match t with
  | policy => "Privacy Policy"
  | terms => "Terms and Conditions"
  end.

(** [a || b] on an optional string: an absent or empty [a] is falsy. *)
Definition or_else (a : option string) (b : string) : string :=
  match a with
  | Some s => if String.eqb s "" then b else s
  | None => b
  end.

Inductive Icon : Type := IconLock | IconLicense.

(** One entry of "Sources Referenced" (lines 281-309). *)
Record LinkItem : Type := {
  item_key : string;
  item_href : string;
  item_badge : string;
  item_icon : Icon;
  item_title : string;
  item_title_hover : string;
  item_url : string
}.

Definition link_item (index : nat) (l : AnalysedLink) : LinkItem :=
  let link := link l in
  {| item_key := href link ++ "-" ++ pretty index;
     item_href := href link;
     item_badge :=
       match type link with
       | policy => "bg-blue-500/20 text-blue-400"
       | terms => "bg-purple-500/20 text-purple-400"
       end;
     item_icon := match type link with policy => IconLock | terms => IconLicense end;
     item_title := or_else (pageTitle link) (getLinkText (type link));
     item_title_hover :=
       match type link with
       | policy => "group-hover:text-blue-400"
       | terms => "group-hover:text-purple-400"
       end;
     item_url := href link |}.

Definition link_items (links : list AnalysedLink) : list LinkItem :=
  imap link_item links.

(** The error display (lines 246-250): [error && ...] shows nothing for
    null and for the empty string. *)
Definition error_banner (s : Panel) : option string :=
  match error s with
  | Some e => if String.eqb e "" then None else Some e
  | None => None
  end.

(** What Sidebar returns, as far as it depends on the state. *)
Inductive Content : Type :=
  | NoContentScanned
  | Analysed (total : number) (totalClass : string)
      (breakdown : option (list CategoryRow)) (sources : list LinkItem).

Record View : Type := {
  button_disabled : bool;
  banner : option string;
  content : Content
}.

Definition Sidebar_view (s : Panel) : View :=
  {| button_disabled := isInjecting s;
     banner := error_banner s;
     content :=
       match links s with
       | [] => NoContentScanned
       | _ :: _ =>
           Analysed (calculateTotalScore (results s))
             (scoreClass (calculateTotalScore (results s)))
             (ScoreAccordion (results s))
             (link_items (links s))
       end |}.

(** The part of a string after its last dash. *)
Definition is_dash (c : Ascii.ascii) : bool := Ascii.eqb c "-"%char.

Fixpoint has_dash (s : string) : bool :=
  match s with
  | EmptyString => false
  | String c rest => is_dash c || has_dash rest
  end.

Fixpoint after_last_dash (s : string) : string :=
  match s with
  | EmptyString => EmptyString
  | String c rest =>
      if has_dash rest then after_last_dash rest
      else if is_dash c then rest else s
  end.

(** ** Bookkeeping on configurations *)

Definition is_injection (p : Async) : bool :=
  match p with
  | AwaitSendMessage _ => true
  | _ => false
  end.

(** How many [injectScript] calls are waiting for their response. *)
Definition injections_in_flight (c : Config) : nat :=
  length (List.filter is_injection (suspended c)).

(** A handler suspended where the source has an [await]. *)
Definition source_await (p : Async) : Prop :=
  (exists batch, p = AwaitAll batch messageListener_resume) \/
  p = AwaitSendMessage injectScript_resume.

Definition is_acknowledgement (e : Effect) : bool :=
  match e with
  | sendResponse _ => true
  | _ => false
  end.

Definition fixed_acknowledgement (e : Effect) : Prop :=
  match e with
  | sendResponse r => r = {| farewell := "goodbye" |}
  | _ => True
  end.

(** What every reachable configuration satisfies. *)
Definition config_invariant (c : Config) : Prop :=
  Forall source_await (suspended c) /\
  Forall fixed_acknowledgement (history c).

(** ** More concrete inputs *)

(** The initial scores under other names, in another order. *)
Definition reordered_results : Results :=
  {| scores :=
       [ ("d", {| quotes := []; score := Finite 5 |});
         ("c", {| quotes := ["q"]; score := Finite 4 |});
         ("a", {| quotes := []; score := Finite 3 |});
         ("b", {| quotes := []; score := Finite 2 |}) ] |}.

Definition all_threes : Results :=
  {| scores :=
       [ ("a", {| quotes := []; score := Finite 3 |});
         ("b", {| quotes := []; score := Finite 3 |});
         ("c", {| quotes := []; score := Finite 3 |}) ] |}.

Definition with_NaN_score : Results :=
  {| scores :=
       [ ("a", {| quotes := []; score := Finite 5 |});
         ("b", {| quotes := []; score := NaN |}) ] |}.

(** The scan button has been clicked and [sendMessage] has not answered. *)
Definition clicked_config : Config :=
  resume injectScript initial_config (suspended initial_config).

(** A second click before the button was rendered as disabled. *)
Definition double_clicked_config : Config :=
  resume injectScript clicked_config (suspended clicked_config).


(** Two notifications are waiting; the batch of the second one settles
    first. *)
Definition two_pending_config : Config :=
  resume (messageListener single_link_message) notified_config
    (suspended notified_config).

Definition newer_settled_config : Config :=
  resume
    (messageListener_resume
       (Returns [ {| link := tos_link; analysis := Some out_of_range_analysis |} ]))
    two_pending_config (delete 1%nat (suspended two_pending_config)).

(** * Facts about binary64 rounding *)

Section NumberFacts.

Lemma pow2_pos e : (0 < pow2 e)%Q.
Proof. unfold pow2. apply Qpower_0_lt. reflexivity. Qed.

Lemma pow2_add a b : (pow2 (a + b) == pow2 a * pow2 b)%Q.
Proof. unfold pow2. apply Qpower_plus. discriminate. Qed.

Lemma pow2_succ e : (pow2 (e + 1) == 2 * pow2 e)%Q.
Proof.
  rewrite pow2_add. assert (H1 : (pow2 1 == 2)%Q) by reflexivity.
  rewrite H1. ring.
Qed.

Lemma pow2_pred e : (pow2 (e - 1) == pow2 e * (1 # 2))%Q.
Proof.
  pose proof (pow2_succ (e - 1)) as H.
  replace (e - 1 + 1) with e in H by lia. lra.
Qed.

Lemma pow2_le a b : a <= b -> (pow2 a <= pow2 b)%Q.
Proof.
  intros H. unfold pow2. apply Qpower_le_compat_l; [exact H | lra].
Qed.

Lemma pow2_lt a b : a < b -> (pow2 a < pow2 b)%Q.
Proof.
  intros H. assert (Hle : (pow2 (a + 1) <= pow2 b)%Q) by (apply pow2_le; lia).
  rewrite pow2_succ in Hle. pose proof (pow2_pos a). lra.
Qed.

Lemma pow2_lt_inv a b : (pow2 a < pow2 b)%Q -> a < b.
Proof.
  intros H. destruct (Z_lt_le_dec a b) as [|Hle]; [assumption|].
  apply pow2_le in Hle. lra.
Qed.

Lemma pow2_inject e : 0 <= e -> (pow2 e == inject_Z (2 ^ e))%Q.
Proof.
  intros H. unfold pow2. rewrite Zpower_Qpower by exact H. reflexivity.
Qed.

Local Open Scope Q_scope.

Lemma round_half_even_spec y :
  inject_Z (round_half_even y) - (1 # 2) <= y /\
  y <= inject_Z (round_half_even y) + (1 # 2).
Proof.
  unfold round_half_even.
  pose proof (Qfloor_le y) as Hlo. pose proof (Qlt_floor y) as Hhi.
  rewrite inject_Z_plus in Hhi. change (inject_Z 1) with 1 in Hhi.
  destruct (Qcompare_spec (y - inject_Z (Qfloor y)) (1 # 2)) as [He | Hl | Hg].
  - destruct (Z.even (Qfloor y)).
    + lra.
    + rewrite inject_Z_plus. change (inject_Z 1) with 1. lra.
  - lra.
  - rewrite inject_Z_plus. change (inject_Z 1) with 1. lra.
Qed.

Lemma inject_Z_near (a b : Z) :
  inject_Z a - (1 # 2) <= inject_Z b -> inject_Z b <= inject_Z a + (1 # 2) -> a = b.
Proof.
  intros H1 H2.
  assert (Ha : inject_Z a < inject_Z (b + 1)).
  { rewrite inject_Z_plus. change (inject_Z 1) with 1. lra. }
  assert (Hb : inject_Z b < inject_Z (a + 1)).
  { rewrite inject_Z_plus. change (inject_Z 1) with 1. lra. }
  rewrite <- Zlt_Qlt in Ha, Hb. lia.
Qed.

Lemma round_half_even_integer y z : y == inject_Z z -> round_half_even y = z.
Proof.
  intros H. destruct (round_half_even_spec y) as [H1 H2].
  apply inject_Z_near; lra.
Qed.

Lemma Q_as_fraction (x : Q) : x * inject_Z (Zpos (Qden x)) == inject_Z (Qnum x).
Proof.
  destruct x as [n d]. unfold Qeq, Qmult, inject_Z. simpl. lia.
Qed.

Lemma Qnum_pos (x : Q) : 0 < x -> (0 < Qnum x)%Z.
Proof. destruct x as [n d]. unfold Qlt. simpl. lia. Qed.

Lemma log2_bounds (n : Z) :
  (0 < n)%Z -> pow2 (Z.log2 n) <= inject_Z n /\ inject_Z n < pow2 (Z.log2 n + 1).
Proof.
  intros Hn. destruct (Z.log2_spec n Hn) as [H1 H2].
  pose proof (Z.log2_nonneg n) as H0.
  rewrite !pow2_inject by lia. split.
  - rewrite <- Zle_Qle. exact H1.
  - rewrite <- Zlt_Qlt. replace (Z.log2 n + 1)%Z with (Z.succ (Z.log2 n)) by lia.
    exact H2.
Qed.

Lemma ilog2_spec x : 0 < x -> pow2 (ilog2 x) <= x /\ x < pow2 (ilog2 x + 1).
Proof.
  intros Hx. unfold ilog2.
  pose proof (Qnum_pos x Hx) as Hn.
  destruct (log2_bounds (Qnum x) Hn) as [Hn1 Hn2].
  destruct (log2_bounds (Zpos (Qden x)) eq_refl) as [Hd1 Hd2].
  pose proof (Q_as_fraction x) as Hf.
  set (la := Z.log2 (Qnum x)) in *. set (lb := Z.log2 (Zpos (Qden x))) in *.
  set (N := inject_Z (Qnum x)) in *. set (D := inject_Z (Zpos (Qden x))) in *.
  assert (Hla : pow2 la == pow2 (la - lb) * pow2 lb).
  { rewrite <- pow2_add. replace (la - lb + lb)%Z with la by lia. reflexivity. }
  pose proof (pow2_succ la) as Hsa. pose proof (pow2_succ lb) as Hsb.
  pose proof (pow2_pos (la - lb)) as HP. pose proof (pow2_pos lb) as HB.
  set (P := pow2 (la - lb)) in *. set (B := pow2 lb) in *.
  destruct (Qle_bool P x) eqn:Hc.
  - apply Qle_bool_iff in Hc. split; [exact Hc|].
    rewrite pow2_succ. fold P.
    destruct (Qlt_le_dec x (2 * P)) as [|Hge]; [assumption|exfalso].
    assert (0 <= (x - 2 * P) * D) by (apply Qmult_le_0_compat; lra).
    assert (0 <= P * (D - B)) by (apply Qmult_le_0_compat; lra).
    nra.
  - assert (Hlt : x < P).
    { destruct (Qlt_le_dec x P) as [|Hge]; [assumption|].
      apply Qle_bool_iff in Hge. congruence. }
    replace (la - lb - 1 + 1)%Z with (la - lb)%Z by lia. split; [|exact Hlt].
    rewrite pow2_pred. fold P.
    destruct (Qlt_le_dec x (P * (1 # 2))) as [Hl|]; [exfalso|assumption].
    assert (0 <= (P * (1 # 2) - x) * D) by (apply Qmult_le_0_compat; lra).
    assert (0 <= P * (2 * B - D)) by (apply Qmult_le_0_compat; lra).
    nra.
Qed.

Lemma round_pos_finite x :
  inject_Z (round_half_even (x / pow2 (ulp_exp x))) * pow2 (ulp_exp x) < pow2 emax ->
  round_pos x =
    Finite (inject_Z (round_half_even (x / pow2 (ulp_exp x))) * pow2 (ulp_exp x)).
Proof.
  intros H. unfold round_pos.
  destruct (Qle_bool _ _) eqn:Hc; [|reflexivity].
  apply Qle_bool_iff in Hc. lra.
Qed.

Lemma scaled_spec x e : x / pow2 e * pow2 e == x.
Proof.
  pose proof (pow2_pos e). field. lra.
Qed.

(** In the normal range the relative error of rounding is at most 2^-53. *)
Lemma round_pos_normal x :
  pow2 (-1022) <= x -> x < pow2 1023 ->
  exists y, round_pos x = Finite y /\
            x - x * pow2 (-53) <= y /\ y <= x + x * pow2 (-53).
Proof.
  intros Hlo Hhi.
  pose proof (pow2_pos (-1022)) as Hp.
  assert (Hx : 0 < x) by lra.
  destruct (ilog2_spec x Hx) as [Hl1 Hl2].
  assert (Hil : (-1022 < ilog2 x + 1)%Z) by (apply pow2_lt_inv; lra).
  assert (He : ulp_exp x = (ilog2 x - 52)%Z).
  { unfold ulp_exp, prec, emin. lia. }
  pose proof (scaled_spec x (ulp_exp x)) as Hs.
  destruct (round_half_even_spec (x / pow2 (ulp_exp x))) as [Hm1 Hm2].
  set (s := x / pow2 (ulp_exp x)) in *.
  set (m := inject_Z (round_half_even s)) in *.
  pose proof (pow2_pos (ulp_exp x)) as HE.
  assert (Hu : pow2 (ulp_exp x) * (1 # 2) == pow2 (ilog2 x) * pow2 (-53)).
  { rewrite He, <- pow2_pred, <- pow2_add. 
    replace (ilog2 x - 52 - 1)%Z with (ilog2 x + -53)%Z by lia. reflexivity. }
  pose proof (pow2_pos (-53)) as Hu0.
  assert (Hu1 : pow2 (-53) <= 1).
  { change 1 with (pow2 0). apply pow2_le. lia. }
  assert (Hb : pow2 (ulp_exp x) * (1 # 2) <= x * pow2 (-53)).
  { rewrite Hu. apply Qmult_le_compat_r; lra. }
  set (E := pow2 (ulp_exp x)) in *.
  assert (H1 : 0 <= (s - (m - (1 # 2))) * E) by (apply Qmult_le_0_compat; lra).
  assert (H2 : 0 <= (m + (1 # 2) - s) * E) by (apply Qmult_le_0_compat; lra).
  assert (Hy1 : x - x * pow2 (-53) <= m * E) by nra.
  assert (Hy2 : m * E <= x + x * pow2 (-53)) by nra.
  exists (m * E). split; [|split; assumption].
  apply round_pos_finite. change (m * E < pow2 emax).
  assert (Hmax : pow2 emax == 2 * pow2 1023) by (apply (pow2_succ 1023)).
  assert (x * pow2 (-53) <= x) by nra.
  lra.
Qed.

Lemma Qred_num_pos x : 0 < x -> exists p, Qnum (Qred x) = Zpos p.
Proof.
  intros Hx. pose proof (Qred_correct x) as Hr.
  assert (H0 : 0 < Qred x) by lra.
  apply Qnum_pos in H0. destruct (Qnum (Qred x)); try lia. eauto.
Qed.

Lemma fl_zero x : x == 0 -> fl x = Finite 0.
Proof.
  intros Hx. unfold fl.
  assert (Hr : Qred x == 0) by (rewrite Qred_correct; exact Hx).
  destruct (Qred x) as [n d]. unfold Qeq in Hr. simpl in *.
  assert (n = 0%Z) by lia. subst n. reflexivity.
Qed.

Lemma fl_normal x :
  pow2 (-1022) <= x -> x < pow2 1023 ->
  exists y, fl x = Finite y /\
            x - x * pow2 (-53) <= y /\ y <= x + x * pow2 (-53).
Proof.
  intros Hlo Hhi. pose proof (pow2_pos (-1022)) as Hp.
  destruct (Qred_num_pos x) as [p Hp']; [lra|].
  pose proof (Qred_correct x) as Hr.
  destruct (round_pos_normal (Qred x)) as (y & Hy & H1 & H2); [lra | lra |].
  exists y. split.
  - unfold fl. rewrite Hp'. exact Hy.
  - rewrite Hr in H1, H2. split; assumption.
Qed.

(** Integers below 2^53 are binary64 values: rounding leaves them as
    they are. *)
Lemma fl_integer x z :
  x == inject_Z z -> (0 <= z < 2 ^ 53)%Z ->
  exists y, fl x = Finite y /\ y == inject_Z z.
Proof.
  intros Hx Hz.
  destruct (Z.eq_dec z 0%Z) as [-> | Hnz].
  { exists 0. split; [apply fl_zero; exact Hx | reflexivity]. }
  assert (Hz1 : 1 <= inject_Z z).
  { change 1 with (inject_Z 1). rewrite <- Zle_Qle. lia. }
  assert (Hz2 : inject_Z z < pow2 53).
  { rewrite pow2_inject by lia. rewrite <- Zlt_Qlt. lia. }
  destruct (Qred_num_pos x) as [p Hp]; [lra|].
  pose proof (Qred_correct x) as Hr.
  set (r := Qred x) in *.
  assert (Hrz : r == inject_Z z) by lra.
  destruct (ilog2_spec r) as [Hl1 Hl2]; [lra|].
  assert (Hi1 : (ilog2 r < 53)%Z) by (apply pow2_lt_inv; lra).
  assert (Hi2 : (0 < ilog2 r + 1)%Z).
  { apply pow2_lt_inv. change (pow2 0) with 1. lra. }
  assert (He : ulp_exp r = (ilog2 r - 52)%Z).
  { unfold ulp_exp, prec, emin. lia. }
  set (e := ulp_exp r) in *.
  pose proof (scaled_spec r e) as Hs.
  pose proof (pow2_pos e) as HE.
  assert (Hinv : pow2 e * pow2 (- e) == 1).
  { rewrite <- pow2_add. replace (e + - e)%Z with 0%Z by lia. reflexivity. }
  assert (Hne : pow2 (- e) == inject_Z (2 ^ (- e))) by (apply pow2_inject; lia).
  assert (Hsz : r / pow2 e == inject_Z (z * 2 ^ (- e))).
  { rewrite inject_Z_mult, <- Hne, <- Hrz.
    transitivity (r / pow2 e * (pow2 e * pow2 (- e))).
    - rewrite Hinv. ring.
    - rewrite Qmult_assoc, Hs. reflexivity. }
  assert (Hy : inject_Z (round_half_even (r / pow2 e)) * pow2 e == inject_Z z).
  { rewrite (round_half_even_integer _ _ Hsz).
    rewrite inject_Z_mult, <- Hne.
    transitivity (inject_Z z * (pow2 e * pow2 (- e))); [ring|].
    rewrite Hinv. ring. }
  exists (inject_Z (round_half_even (r / pow2 e)) * pow2 e).
  split; [|exact Hy].
  unfold fl. fold r. rewrite Hp. apply round_pos_finite.
  change (ulp_exp r) with e. rewrite Hy.
  assert (pow2 53 <= pow2 emax) by (apply pow2_le; unfold emax; lia).
  lra.
Qed.

Lemma Qis_zero_false (m : Q) : ~ m == 0 -> Qis_zero m = false.
Proof.
  intros H. unfold Qis_zero. apply Z.eqb_neq. intros Hn. apply H.
  destruct m as [n d]. simpl in Hn. subst n. reflexivity.
Qed.

Lemma pow2_m51 : pow2 (-51) == 4 * pow2 (-53).
Proof.
  replace (-51)%Z with (-53 + 2)%Z by lia. rewrite pow2_add.
  assert (H : pow2 2 == 4) by reflexivity. rewrite H. ring.
Qed.

(** [(t / m) * 100] on binary64 values holding the integers [S <= M]:
    the result is within a relative 2^-51 of [100 * S / M]. *)
Lemma div_mul_100 (t m : Q) (S M : Z) :
  t == inject_Z S -> m == inject_Z M ->
  (0 <= S <= M)%Z -> (0 < M < 2 ^ 50)%Z ->
  exists p' Y, mul (div (Finite t) (Finite m)) (Finite 100) = Finite p' /\
    Y * inject_Z M == inject_Z (100 * S) /\
    Y - Y * pow2 (-51) <= p' /\ p' <= Y + Y * pow2 (-51).
Proof.
  intros Ht Hm HS HM.
  assert (HMq : 0 < inject_Z M) by (change 0 with (inject_Z 0); rewrite <- Zlt_Qlt; lia).
  assert (Hnz : Qis_zero m = false) by (apply Qis_zero_false; lra).
  unfold div. rewrite Hnz.
  pose proof (pow2_pos (-51)) as Hu51.
  destruct (Z.eq_dec S 0%Z) as [-> | HS0].
  { assert (Hx : t / m == 0) by (rewrite Ht; field; lra).
    rewrite (fl_zero _ Hx). unfold mul.
    assert (Hx' : 0 * 100 == 0) by ring. rewrite (fl_zero _ Hx').
    exists 0, 0. repeat split; lra. }
  assert (HSq : 1 <= inject_Z S) by (change 1 with (inject_Z 1); rewrite <- Zle_Qle; lia).
  assert (HSM : inject_Z S <= inject_Z M) by (rewrite <- Zle_Qle; lia).
  assert (HM50 : inject_Z M < pow2 50).
  { rewrite pow2_inject by lia. rewrite <- Zlt_Qlt. lia. }
  assert (Hinv : pow2 50 * pow2 (-50) == 1).
  { rewrite <- pow2_add. reflexivity. }
  pose proof (pow2_pos (-50)) as Hp50. pose proof (pow2_pos 50) as Hq50.
  set (x := t / m).
  assert (Hxm : x * inject_Z M == inject_Z S).
  { unfold x. rewrite Ht, Hm. field. lra. }
  assert (Hx1 : x <= 1).
  { destruct (Qlt_le_dec 1 x) as [Hgt|]; [exfalso|assumption].
    assert (0 <= (x - 1) * inject_Z M) by (apply Qmult_le_0_compat; lra). nra. }
  assert (Hx0 : pow2 (-50) <= x).
  { destruct (Qlt_le_dec x (pow2 (-50))) as [Hlt|]; [exfalso|assumption].
    assert (0 <= (pow2 (-50) - x) * inject_Z M) by (apply Qmult_le_0_compat; lra).
    assert (0 <= pow2 (-50) * (pow2 50 - inject_Z M)) by (apply Qmult_le_0_compat; lra).
    nra. }
  assert (Hlow : pow2 (-1022) <= pow2 (-51)) by (apply pow2_le; lia).
  assert (Hlow' : pow2 (-51) == pow2 (-50) * (1 # 2)) by (apply (pow2_pred (-50))).
  assert (Hhigh : 256 <= pow2 1023).
  { assert (H8 : pow2 8 == 256) by reflexivity. rewrite <- H8. apply pow2_le. lia. }
  pose proof (pow2_pos (-53)) as Hu. pose proof pow2_m51 as H51.
  assert (Hu1 : pow2 (-53) <= (1 # 2)).
  { assert (H1 : pow2 (-1) == (1 # 2)) by reflexivity. rewrite <- H1. apply pow2_le. lia. }
  destruct (fl_normal x) as (q & Hq & Hq1 & Hq2); [lra | lra |].
  rewrite Hq. unfold mul.
  assert (Hxu : 0 <= x * pow2 (-53)) by (apply Qmult_le_0_compat; lra).
  assert (Hxu' : x * pow2 (-53) <= x * (1 # 2)) by (apply Qmult_le_l; lra).
  destruct (fl_normal (q * 100)) as (p' & Hp & Hp1 & Hp2); [lra | lra |].
  rewrite Hp. exists p', (100 * x). split; [reflexivity|]. split.
  { rewrite inject_Z_mult. change (inject_Z 100) with 100. rewrite <- Hxm. ring. }
  assert (Hqu1 : q * pow2 (-53) <= (x + x * pow2 (-53)) * pow2 (-53)) by (apply Qmult_le_compat_r; lra).
  assert (Hqu2 : (x - x * pow2 (-53)) * pow2 (-53) <= q * pow2 (-53)) by (apply Qmult_le_compat_r; lra).
  assert (Hxuu : 0 <= x * pow2 (-53) * pow2 (-53)) by (apply Qmult_le_0_compat; lra).
  assert (Hxu0 : 0 < x * pow2 (-53)) by (apply Qmult_lt_0_compat; lra).
  assert (Hxuu' : x * pow2 (-53) * pow2 (-53) <= x * pow2 (-53) * (1 # 2)) by (apply Qmult_le_l; lra).
  assert (Hx51 : x * pow2 (-51) == 4 * (x * pow2 (-53))) by (rewrite H51; ring).
  split; lra.
Qed.

End NumberFacts.

(** On every small map the rounding model and the reference operations
    compute the same percentage, bit for bit. *)
Lemma model_matches_reference :
  map (fun '(s, n) => model_percentage s n) small_maps =
  map (fun '(s, n) => reference_percentage s n) small_maps.
Proof. vm_compute. reflexivity. Qed.

(** * The aggregation *)

Lemma score_in_range_spec sd :
  score_in_range sd = true ->
  exists q k, score sd = Finite q /\ (q == inject_Z k)%Q /\ 0 <= k <= 5 /\
              score_integer sd = Some k.
Proof.
  unfold score_in_range, score_integer.
  destruct (score sd) as [| |q]; try discriminate.
  destruct (Qeq_bool q (inject_Z (Qfloor q))) eqn:Hq; [|discriminate].
  intros H. apply andb_true_iff in H as [H1 H2].
  apply Z.leb_le in H1, H2. apply Qeq_bool_iff in Hq.
  exists q, (Qfloor q). auto.
Qed.

Lemma totalScores_exact (l : list ScoreData) :
  forall (acc : Q) (a : Z),
    Forall (fun sd => score_in_range sd = true) l ->
    (acc == inject_Z a)%Q -> 0 <= a ->
    a + 5 * Z.of_nat (length l) < 2 ^ 53 ->
    exists t,
      fold_left (fun sum scoreData => add sum (score scoreData)) l (Finite acc) = Finite t /\
      (t == inject_Z (a + sum_scores l))%Q /\
      0 <= sum_scores l <= 5 * Z.of_nat (length l).
Proof.
  induction l as [|sd l IH]; intros acc a Hall Hacc Ha Hb.
  - exists acc. simpl. rewrite Z.add_0_r. auto with zarith.
  - inversion Hall as [|? ? Hsd Hl]; subst.
    destruct (score_in_range_spec sd Hsd) as (q & k & Hs & Hq & Hk & Hi).
    simpl length in *. rewrite Nat2Z.inj_succ in *.
    destruct (fl_integer (acc + q) (a + k)) as (y & Hy & Hyz).
    { rewrite inject_Z_plus, Hacc, Hq. reflexivity. }
    { lia. }
    destruct (IH y (a + k) Hl Hyz) as (t & Ht & Htz & Hsum); [lia | lia |].
    exists t. cbn [fold_left]. rewrite Hs. cbn [add]. rewrite Hy.
    split; [exact Ht|].
    cbn [sum_scores foldr]. rewrite Hi. cbn [default id].
    fold (sum_scores l). split.
    + rewrite Htz. rewrite Z.add_assoc. reflexivity.
    + lia.
Qed.

Lemma inject_Z_pos (M : Z) : 0 < M -> (0 < inject_Z M)%Q.
Proof. intros H. change 0%Q with (inject_Z 0). rewrite <- Zlt_Qlt. exact H. Qed.

(** Rounding the exact percentage [Y = 100 * S / M]. *)
Lemma exact_round_bounds (Y : Q) (S M : Z) :
  (Y * inject_Z M == inject_Z (100 * S))%Q -> 0 < M ->
  2 * M * Qfloor (Y + (1 # 2)) <= 200 * S + M < 2 * M * Qfloor (Y + (1 # 2)) + 2 * M.
Proof.
  intros HY HM. pose proof (inject_Z_pos M HM) as HMq.
  pose proof (Qfloor_le (Y + (1 # 2))) as Hlo.
  pose proof (Qlt_floor (Y + (1 # 2))) as Hhi.
  set (E := Qfloor (Y + (1 # 2))) in *.
  rewrite inject_Z_plus in Hhi. rewrite inject_Z_mult in HY.
  change (inject_Z 100) with 100%Q in HY. change (inject_Z 1) with 1%Q in Hhi.
  assert (H1 : (inject_Z M * inject_Z E <= inject_Z M * (Y + (1 # 2)))%Q)
    by (apply Qmult_le_l; assumption).
  assert (H2 : (inject_Z M * (Y + (1 # 2)) < inject_Z M * (inject_Z E + 1))%Q)
    by (apply Qmult_lt_l; assumption).
  split.
  - rewrite Zle_Qle. rewrite inject_Z_plus, !inject_Z_mult.
    change (inject_Z 2) with 2%Q. change (inject_Z 200) with 200%Q. lra.
  - rewrite Zlt_Qlt. rewrite !inject_Z_plus, !inject_Z_mult.
    change (inject_Z 2) with 2%Q. change (inject_Z 200) with 200%Q. lra.
Qed.

(** Rounding a value within a relative 2^-51 of the exact percentage. *)
Lemma near_round_bounds (p' Y : Q) (S M : Z) :
  (Y * inject_Z M == inject_Z (100 * S))%Q ->
  0 <= S <= M -> 0 < M < 2 ^ 43 ->
  (Y - Y * pow2 (-51) <= p')%Q -> (p' <= Y + Y * pow2 (-51))%Q ->
  200 * S - M <= 2 * M * Qfloor (p' + (1 # 2)) <= 200 * S + M.
Proof.
  intros HY HS HM Hp1 Hp2. pose proof (inject_Z_pos M (proj1 HM)) as HMq.
  pose proof (Qfloor_le (p' + (1 # 2))) as Hlo.
  pose proof (Qlt_floor (p' + (1 # 2))) as Hhi.
  set (p := Qfloor (p' + (1 # 2))) in *.
  rewrite inject_Z_plus in Hhi. rewrite inject_Z_mult in HY.
  change (inject_Z 100) with 100%Q in HY. change (inject_Z 1) with 1%Q in Hhi.
  assert (HS0 : (0 <= inject_Z S)%Q)
    by (change 0%Q with (inject_Z 0); rewrite <- Zle_Qle; lia).
  assert (HSM : (inject_Z S <= inject_Z M)%Q) by (rewrite <- Zle_Qle; lia).
  assert (HM43 : (inject_Z M < pow2 43)%Q).
  { rewrite pow2_inject by lia. rewrite <- Zlt_Qlt. lia. }
  assert (HY0 : (0 <= Y)%Q).
  { destruct (Qlt_le_dec Y 0) as [Hneg|]; [exfalso|assumption].
    assert (0 < (- Y) * inject_Z M)%Q by (apply Qmult_lt_0_compat; lra). lra. }
  assert (HY100 : (Y <= 100)%Q).
  { destruct (Qlt_le_dec 100 Y) as [Hgt|]; [exfalso|assumption].
    assert (0 < (Y - 100) * inject_Z M)%Q by (apply Qmult_lt_0_compat; lra). lra. }
  pose proof (pow2_pos (-51)) as Hu.
  assert (Hinv : (pow2 43 * pow2 (-51) == 1 # 256)%Q).
  { rewrite <- pow2_add. reflexivity. }
  assert (Hd1 : (Y * pow2 (-51) <= 100 * pow2 (-51))%Q)
    by (apply Qmult_le_compat_r; lra).
  assert (Hd0 : (0 <= Y * pow2 (-51))%Q) by (apply Qmult_le_0_compat; lra).
  assert (Hd2 : (inject_Z M * (Y * pow2 (-51)) <= inject_Z M * (100 * pow2 (-51)))%Q)
    by (apply Qmult_le_l; assumption).
  assert (Hd3 : (inject_Z M * (100 * pow2 (-51)) <= pow2 43 * (100 * pow2 (-51)))%Q)
    by (apply Qmult_le_compat_r; lra).
  assert (H1 : (inject_Z M * inject_Z p <= inject_Z M * (p' + (1 # 2)))%Q)
    by (apply Qmult_le_l; assumption).
  assert (H2 : (inject_Z M * (p' + (1 # 2)) < inject_Z M * (inject_Z p + 1))%Q)
    by (apply Qmult_lt_l; assumption).
  assert (H3 : (inject_Z M * p' <= inject_Z M * (Y + Y * pow2 (-51)))%Q)
    by (apply Qmult_le_l; assumption).
  assert (H4 : (inject_Z M * (Y - Y * pow2 (-51)) <= inject_Z M * p')%Q)
    by (apply Qmult_le_l; assumption).
  assert (Hup : 2 * M * p < 200 * S + M + 1).
  { rewrite Zlt_Qlt. rewrite !inject_Z_plus, !inject_Z_mult.
    change (inject_Z 2) with 2%Q. change (inject_Z 200) with 200%Q.
    change (inject_Z 1) with 1%Q. lra. }
  assert (Hdn : 200 * S - M - 1 < 2 * M * p).
  { rewrite Zlt_Qlt. unfold Z.sub. rewrite !inject_Z_plus, !inject_Z_mult, !inject_Z_opp.
    change (inject_Z 2) with 2%Q. change (inject_Z 200) with 200%Q.
    change (inject_Z 1) with 1%Q. lra. }
  lia.
Qed.

(** C1 (amended).  For every non-empty category map of fewer than 2^40
    categories whose scores are all integers in [0,5],
    [calculateTotalScore] returns an integer percentage in [0,100].  It is
    round(100 * sum / (5 * count)), except that when
    100 * sum / (5 * count) lies exactly halfway between two integers the
    result may be the lower of the two: [sum / (5 * count)] is rounded to
    binary64 before it is multiplied by 100. *)
Theorem calculateTotalScore_nearest (r : Results) :
  let l := Object_values (scores r) in
  let n := Z.of_nat (length l) in
  l <> [] ->
  Forall (fun sd => score_in_range sd = true) l ->
  n < 2 ^ 40 ->
  exists p : Z,
    calculateTotalScore r = Finite (inject_Z p) /\
    0 <= p <= 100 /\
    (p = exact_percentage (sum_scores l) n \/
     (p = exact_percentage (sum_scores l) n - 1 /\
      (inject_Z (100 * sum_scores l) / inject_Z (5 * n) + (1 # 2) ==
       inject_Z (exact_percentage (sum_scores l) n))%Q)).
Proof.
  intros l n Hne Hall Hn.
  assert (Hn0 : 0 < n) by (subst n; destruct l; [congruence | simpl; lia]).
  unfold calculateTotalScore. fold l.
  destruct (totalScores_exact l 0%Q 0 Hall) as (t & Ht & Htz & HS);
    [reflexivity | lia | fold n; lia |].
  fold n in HS. rewrite Z.add_0_l in Htz. rewrite Ht.
  set (S := sum_scores l) in *.
  destruct (fl_integer (inject_Z n) n) as (y1 & Hy1 & Hy1z); [reflexivity | lia |].
  unfold of_nat, of_Z. fold n. rewrite Hy1. cbn [mul].
  destruct (fl_integer (y1 * 5)%Q (5 * n)) as (m & Hm & Hmz).
  { rewrite Hy1z, inject_Z_mult. change (inject_Z 5) with 5%Q. ring. }
  { lia. }
  rewrite Hm.
  destruct (div_mul_100 t m S (5 * n) Htz Hmz) as (p' & Y & Hp & HY & Hp1 & Hp2);
    [lia | lia |].
  rewrite Hp. cbn [Math_round].
  pose proof (near_round_bounds p' Y S (5 * n) HY) as Hnear.
  specialize (Hnear ltac:(lia) ltac:(lia) Hp1 Hp2).
  set (p := Qfloor (p' + (1 # 2))) in *.
  assert (HMq : (0 < inject_Z (5 * n))%Q) by (apply inject_Z_pos; lia).
  assert (HYeq : (inject_Z (100 * S) / inject_Z (5 * n) == Y)%Q).
  { rewrite <- HY. field. lra. }
  pose proof (exact_round_bounds Y S (5 * n) HY ltac:(lia)) as Hex.
  unfold exact_percentage.
  assert (HE : Qfloor (inject_Z (100 * S) / inject_Z (5 * n) + (1 # 2)) =
               Qfloor (Y + (1 # 2))).
  { apply Qfloor_comp. rewrite HYeq. reflexivity. }
  rewrite HE. set (E := Qfloor (Y + (1 # 2))) in *.
  exists p. split; [reflexivity|]. split; [nia|].
  assert (Hcases : p = E \/ p = E - 1) by nia.
  destruct Hcases as [Hc | Hc]; [left; exact Hc | right].
  split; [exact Hc|].
  rewrite HYeq.
  assert (Htie : 2 * (5 * n) * E = 200 * S + 5 * n) by nia.
  set (M := 5 * n) in *.
  assert (Htq : (inject_Z (2 * M * E) == inject_Z (200 * S + M))%Q)
    by (rewrite Htie; reflexivity).
  rewrite inject_Z_plus, !inject_Z_mult in Htq. rewrite inject_Z_mult in HY.
  change (inject_Z 100) with 100%Q in HY. change (inject_Z 2) with 2%Q in Htq.
  change (inject_Z 200) with 200%Q in Htq.
  assert (Hz : ((Y + (1 # 2) - inject_Z E) * inject_Z M == 0)%Q).
  { transitivity ((Y * inject_Z M) + (1 # 2) * inject_Z M
                  - (1 # 2) * (2 * inject_Z M * inject_Z E))%Q; [ring|].
    rewrite HY, Htq. ring. }
  apply Qmult_integral in Hz. destruct Hz as [Hz | Hz]; lra.
Qed.

Lemma calculateTotalScore_nearest_witness :
  Object_values (scores eight_categories) <> [] /\
  exists p : Z,
    calculateTotalScore eight_categories = Finite (inject_Z p) /\ 0 <= p <= 100.
Proof.
  split; [discriminate|].
  destruct (calculateTotalScore_nearest eight_categories) as (p & Hp & Hr & _).
  - discriminate.
  - repeat constructor.
  - reflexivity.
  - exists p. split; assumption.
Defined.

(** C1 as stated fails on eight categories whose scores sum to 23: the
    exact percentage is 57.5, which rounds to 58 (halves up as well as
    halves to even), while (23 / 40) * 100 is 57.49999999999999 in
    binary64 and [Math.round] gives 57. *)
Lemma tie_rounds_down :
  Forall (fun sd => score_in_range sd = true) (Object_values (scores eight_categories)) /\
  sum_scores (Object_values (scores eight_categories)) = 23 /\
  calculateTotalScore eight_categories = Finite 57 /\
  exact_percentage 23 8 = 58 /\
  round_half_even (inject_Z (100 * 23) / inject_Z (5 * 8)) = 58.
Proof.
  split; [repeat constructor|]. split; [reflexivity|].
  repeat split; vm_compute; reflexivity.
Qed.

(** * Promise.all and the batch *)

Section PromiseAll.
Context {A : Type}.
Implicit Types (vs : list A) (values : list (option A)) (order : list nat).

Lemma all_filled_Some vs : all_filled (Some <$> vs) = Some vs.
Proof.
  induction vs as [|v vs IH]; [reflexivity|].
  rewrite fmap_cons. cbn [all_filled]. rewrite IH. reflexivity.
Qed.

(** When every promise fulfils, each settlement fills the slot of its
    own index and leaves the other slots alone. *)
Lemma settle_fulfilled vs order : forall values,
  length values = length vs ->
  exists values',
    Promise_all_settle order (Returns <$> vs) values = Returns values' /\
    length values' = length vs /\
    forall j, values' !! j =
              if decide (j ∈ order) then Some <$> vs !! j else values !! j.
Proof.
  induction order as [|i order IH]; intros values Hlen.
  - exists values. split; [reflexivity|]. split; [exact Hlen|].
    intros j. destruct (decide (j ∈ [])) as [Hin|]; [|reflexivity].
    inversion Hin.
  - cbn [Promise_all_settle]. rewrite list_lookup_fmap.
    destruct (vs !! i) as [v|] eqn:Hv; cbn [fmap option_fmap option_map].
    + destruct (IH (<[i := Some v]> values)) as (values' & Hs & Hl & Hlook).
      { rewrite length_insert. exact Hlen. }
      exists values'. split; [exact Hs|]. split; [exact Hl|].
      intros j. rewrite Hlook.
      destruct (decide (j ∈ order)) as [Hin|Hnin].
      * rewrite decide_True by (right; exact Hin). reflexivity.
      * destruct (decide (j = i)) as [->|Hne].
        -- rewrite decide_True by left.
           rewrite list_lookup_insert_eq, Hv; [reflexivity|].
           rewrite Hlen. eapply lookup_lt_Some. exact Hv.
        -- rewrite list_lookup_insert_ne by congruence.
           rewrite decide_False; [reflexivity|].
           intros Hin. apply elem_of_cons in Hin as [?|?]; congruence.
    + destruct (IH values Hlen) as (values' & Hs & Hl & Hlook).
      exists values'. split; [exact Hs|]. split; [exact Hl|].
      intros j. rewrite Hlook.
      destruct (decide (j ∈ order)) as [Hin|Hnin].
      * rewrite decide_True by (right; exact Hin). reflexivity.
      * destruct (decide (j = i)) as [->|Hne].
        -- rewrite decide_True by left. rewrite Hv.
           apply lookup_ge_None. rewrite Hlen. apply lookup_ge_None. exact Hv.
        -- rewrite decide_False; [reflexivity|].
           intros Hin. apply elem_of_cons in Hin as [?|?]; congruence.
Qed.

Lemma Promise_all_fulfilled vs order :
  (forall j, (j < length vs)%nat -> j ∈ order) ->
  Promise_all order (Returns <$> vs) = Some (Returns vs).
Proof.
  intros Hcover. unfold Promise_all. rewrite length_fmap.
  destruct (settle_fulfilled vs order (replicate (length vs) None))
    as (values' & Hs & Hl & Hlook).
  { apply length_replicate. }
  rewrite Hs.
  assert (Hv : values' = Some <$> vs).
  { apply list_eq. intros j. rewrite Hlook, list_lookup_fmap.
    destruct (decide (j ∈ order)) as [|Hnin]; [reflexivity|].
    destruct (decide (j < length vs)%nat) as [Hlt|Hge].
    - exfalso. apply Hnin, Hcover, Hlt.
    - transitivity (@None (option A)).
      + apply lookup_replicate_None. lia.
      + symmetry. apply fmap_None, lookup_ge_None. lia. }
  rewrite Hv, all_filled_Some. reflexivity.
Qed.

(** While some promise has not settled, [Promise.all] stays pending. *)
Lemma Promise_all_pending vs order j :
  (j < length vs)%nat -> j ∉ order ->
  Promise_all order (Returns <$> vs) = None.
Proof.
  intros Hj Hnin. unfold Promise_all. rewrite length_fmap.
  destruct (settle_fulfilled vs order (replicate (length vs) None))
    as (values' & Hs & Hl & Hlook).
  { apply length_replicate. }
  rewrite Hs.
  assert (Hnone : values' !! j = Some None).
  { rewrite Hlook, decide_False by exact Hnin.
    apply lookup_replicate. auto. }
  clear -Hnone. revert j Hnone.
  induction values' as [|o values' IH]; intros [|j] Hnone; try discriminate.
  - simpl in Hnone. injection Hnone as ->. reflexivity.
  - simpl in Hnone. destruct o as [v|]; [|reflexivity].
    simpl. specialize (IH j Hnone). destruct (all_filled values'); [discriminate|reflexivity].
Qed.
End PromiseAll.

Lemma analyseLink_returns (l : LinkData) (f : Completion Response) :
  exists e, analyseLink l f = Returns e /\ link e = l /\
            has_analysis e = fetch_succeeds f.
Proof.
  unfold analyseLink, fetch_succeeds.
  destruct (fetchAnalysis f) as [a|err].
  - exists (spread_with_analysis l a). destruct l; auto.
  - exists (as_is l). auto.
Qed.

Lemma link_promises_fulfil (ls : list LinkData) : forall fetches,
  length fetches = length ls ->
  exists entries,
    link_promises ls fetches = Returns <$> entries /\
    length entries = length ls /\
    length (List.filter has_analysis entries) =
      length (List.filter fetch_succeeds fetches).
Proof.
  unfold link_promises.
  induction ls as [|l ls IH]; intros [|f fetches] Hlen; try discriminate.
  - exists []. auto.
  - destruct (IH fetches) as (entries & He & Hl & Hc); [simpl in Hlen; lia|].
    destruct (analyseLink_returns l f) as (e & Hr & _ & Hs).
    exists (e :: entries). cbn [zip_with]. rewrite Hr, He. split; [reflexivity|].
    split; [simpl; lia|].
    cbn [List.filter]. rewrite Hs. destruct (fetch_succeeds f); simpl; lia.
Qed.

Lemma filter_negb_length {A : Type} (f : A -> bool) (l : list A) :
  (length (List.filter f l) + length (List.filter (fun x => negb (f x)) l) = length l)%nat.
Proof.
  induction l as [|x l IH]; [reflexivity|].
  cbn [List.filter]. destruct (f x); simpl; lia.
Qed.

Lemma batch_settles (ls : list LinkData)
    (fetches : list (Completion Response)) (order : list nat) :
  length fetches = length ls ->
  (forall i, (i < length ls)%nat -> i ∈ order) ->
  exists entries,
    Promise_all order (link_promises ls fetches) = Some (Returns entries) /\
    length entries = length ls /\
    (forall i l f, ls !! i = Some l -> fetches !! i = Some f ->
       exists e, entries !! i = Some e /\ analyseLink l f = Returns e) /\
    length (List.filter has_analysis entries) =
      length (List.filter fetch_succeeds fetches).
Proof.
  intros Hlen Hcover.
  destruct (link_promises_fulfil ls fetches Hlen) as (entries & He & Hl & Hc).
  exists entries. rewrite He.
  split; [apply Promise_all_fulfilled; rewrite Hl; exact Hcover|].
  split; [exact Hl|]. split; [|exact Hc].
  intros i l f Hi Hf.
  destruct (analyseLink_returns l f) as (e & Hr & _).
  exists e. split; [|exact Hr].
  assert (Hp : link_promises ls fetches !! i = Some (Returns e)).
  { unfold link_promises. rewrite lookup_zip_with, Hi. simpl. rewrite Hf. simpl.
    rewrite Hr. reflexivity. }
  rewrite He, list_lookup_fmap in Hp.
  destruct (entries !! i) as [e'|]; simpl in Hp; congruence.
Qed.

(** C2.  For every sequence of links, whatever each fetch settles to and in
    whatever order the fetches settle, the batch resolves to a sequence of
    the same length and order as the links; the entry of a link is what
    [analyseLink] returns for that link and its own fetch alone, so a
    failed fetch changes no other entry and does not reject the batch; as
    many entries carry an analysis as fetches succeeded, hence N - 1 of
    them when exactly one fetch fails. *)
Theorem batch_analysis_isolated (ls : list LinkData)
    (fetches : list (Completion Response)) (order : list nat) :
  length fetches = length ls ->
  (forall i, (i < length ls)%nat -> i ∈ order) ->
  exists entries,
    Promise_all order (link_promises ls fetches) = Some (Returns entries) /\
    length entries = length ls /\
    (forall i l f, ls !! i = Some l -> fetches !! i = Some f ->
       exists e, entries !! i = Some e /\ analyseLink l f = Returns e /\
                 link e = l /\ has_analysis e = fetch_succeeds f) /\
    length (List.filter has_analysis entries) =
      length (List.filter fetch_succeeds fetches) /\
    (length (List.filter (fun f => negb (fetch_succeeds f)) fetches) = 1%nat ->
     length (List.filter has_analysis entries) = (length ls - 1)%nat).
Proof.
  intros Hlen Hcover.
  destruct (batch_settles ls fetches order Hlen Hcover)
    as (entries & Hp & Hl & Hpt & Hc).
  exists entries. split; [exact Hp|]. split; [exact Hl|].
  split; [|split; [exact Hc|]].
  - intros i l f Hi Hf. destruct (Hpt i l f Hi Hf) as (e & He & Hr).
    destruct (analyseLink_returns l f) as (e' & Hr' & Hlk & Hs).
    exists e. assert (e' = e) by congruence. subst e'. auto.
  - intros H1. pose proof (filter_negb_length fetch_succeeds fetches). lia.
Qed.

Lemma batch_analysis_isolated_witness :
  exists entries,
    Promise_all [1%nat; 0%nat]
      (link_promises [tos_link; priv_link] (fetches scenario_settlement)) =
      Some (Returns entries) /\
    length entries = 2%nat /\
    length (List.filter has_analysis entries) = 1%nat.
Proof.
  destruct (batch_analysis_isolated [tos_link; priv_link]
              (fetches scenario_settlement) [1%nat; 0%nat])
    as (entries & Hp & Hl & _ & _ & Hone).
  - reflexivity.
  - intros [|[|i]] Hi; [right; left | left | simpl in Hi; lia].
  - exists entries. split; [exact Hp|]. split; [exact Hl|].
    apply Hone. reflexivity.
Defined.

(** * The message listener *)

Lemma messageListener_sendLinks (m : ContentScriptMessage) :
  action m = "sendLinks" ->
  messageListener m = AwaitAll (message_links m) messageListener_resume.
Proof. intros H. unfold messageListener. rewrite H. reflexivity. Qed.

(** A sendLinks notification all of whose fetches settle. *)
Section SettledNotification.

Variables (m : ContentScriptMessage) (w : Settlement).
Hypothesis Haction : action m = "sendLinks".
Hypothesis Hfetches : length (fetches w) = length (message_links m).
Hypothesis Hsettle : forall i, (i < length (message_links m))%nat -> i ∈ order w.

Lemma messageListener_run :
  exists entries,
    Promise_all (order w) (link_promises (message_links m) (fetches w)) =
      Some (Returns entries) /\
    run w (messageListener m) =
      ([setLinks entries; setError None; sendResponse {| farewell := "goodbye" |}],
       Fulfilled).
Proof.
  destruct (batch_settles _ _ _ Hfetches Hsettle) as (entries & Hp & _).
  exists entries. split; [exact Hp|].
  rewrite (messageListener_sendLinks m Haction). cbn [run]. rewrite Hp. reflexivity.
Qed.

Lemma messageListener_run_from (s : Panel) :
  exists entries,
    Promise_all (order w) (link_promises (message_links m) (fetches w)) =
      Some (Returns entries) /\
    run_from w (messageListener m) s =
      {| links := entries; isInjecting := isInjecting s; error := None;
         results := results s |}.
Proof.
  destruct messageListener_run as (entries & Hp & Hr).
  exists entries. split; [exact Hp|]. unfold run_from. rewrite Hr. reflexivity.
Qed.

End SettledNotification.

(** C6 (amended).  For every sendLinks notification the listener performs
    nothing before it suspends on the batch; once every fetch has settled
    it sets the links, clears the error and only then sends the fixed
    acknowledgement {farewell: "goodbye"}, once; while some fetch has not
    settled no acknowledgement is sent. *)
Theorem acknowledgement_after_batch (m : ContentScriptMessage) (w : Settlement) :
  action m = "sendLinks" ->
  length (fetches w) = length (message_links m) ->
  (advance (messageListener m)).1 = [] /\
  ((forall i, (i < length (message_links m))%nat -> i ∈ order w) ->
   exists entries,
     run w (messageListener m) =
       ([setLinks entries; setError None; sendResponse {| farewell := "goodbye" |}],
        Fulfilled)) /\
  (forall j, (j < length (message_links m))%nat -> j ∉ order w ->
     run w (messageListener m) = ([], Pending)).
Proof.
  intros Ha Hlen. split; [|split].
  - rewrite (messageListener_sendLinks m Ha). reflexivity.
  - intros Hcover.
    destruct (messageListener_run m w Ha Hlen Hcover) as (entries & _ & Hr).
    exists entries. exact Hr.
  - intros j Hj Hnin.
    destruct (link_promises_fulfil (message_links m) (fetches w) Hlen)
      as (entries & He & Hl & _).
    rewrite (messageListener_sendLinks m Ha). cbn [run]. rewrite He.
    rewrite (Promise_all_pending entries (order w) j); [reflexivity| lia |exact Hnin].
Qed.

Lemma acknowledgement_after_batch_witness :
  (advance (messageListener scenario_message)).1 = [] /\
  exists entries,
    run scenario_settlement (messageListener scenario_message) =
      ([setLinks entries; setError None; sendResponse {| farewell := "goodbye" |}],
       Fulfilled).
Proof.
  destruct (acknowledgement_after_batch scenario_message scenario_settlement)
    as (Hsync & Hrun & _).
  - reflexivity.
  - reflexivity.
  - split; [exact Hsync|]. apply Hrun.
    intros [|[|i]] Hi; [right; left | left | simpl in Hi; lia].
Defined.

(** C6 as stated fails: the acknowledgement is not among the effects the
    listener performs before it suspends, and when one fetch of the batch
    never settles it is never sent. *)
Lemma acknowledgement_waits_for_batch :
  ~ In (sendResponse {| farewell := "goodbye" |})
       (advance (messageListener scenario_message)).1 /\
  run stalled_settlement (messageListener scenario_message) = ([], Pending).
Proof.
  split; [intros H; exact H | reflexivity].
Qed.

(** * The component state *)

Lemma apply_effect_results (e : Effect) (s : Panel) :
  results (apply_effect e s) = results s.
Proof. destruct e; reflexivity. Qed.

Lemma apply_effects_results (es : list Effect) : forall s,
  results (apply_effects es s) = results s.
Proof.
  induction es as [|e es IH]; intros s; [reflexivity|].
  cbn [apply_effects fold_left]. fold (apply_effects es (apply_effect e s)).
  rewrite IH. apply apply_effect_results.
Qed.

Lemma resume_results (p : Async) (c : Config) (others : list Async) :
  results (panel (resume p c others)) = results (panel c).
Proof.
  unfold resume. destruct (advance p) as [es p']. cbn [panel].
  apply apply_effects_results.
Qed.

Lemma step_results (c c' : Config) :
  step c c' -> results (panel c') = results (panel c).
Proof. intros H. destruct H; apply resume_results. Qed.

Lemma reachable_results (c : Config) :
  reachable c -> results (panel c) = initial_results.
Proof.
  induction 1 as [|c c' _ IH Hstep]; [reflexivity|].
  rewrite (step_results _ _ Hstep). exact IH.
Qed.

Lemma initial_score : calculateTotalScore initial_results = Finite 70.
Proof. vm_compute. reflexivity. Qed.

Lemma initial_class : scoreClass (Finite 70) = "text-blue-600".
Proof. vm_compute. reflexivity. Qed.

Lemma notified_config_reachable : reachable notified_config.
Proof.
  apply (reachable_step initial_config); [apply reachable_initial|].
  apply step_notification.
Qed.

Lemma scenario_config_reachable : reachable scenario_config.
Proof.
  apply (reachable_step notified_config); [apply notified_config_reachable|].
  exact (step_batch_settled notified_config 0 (message_links scenario_message)
           messageListener_resume (fetches scenario_settlement)
           (order scenario_settlement)
           (Returns [ {| link := tos_link; analysis := Some scenario_analysis |};
                      {| link := priv_link; analysis := None |} ])
           eq_refl eq_refl eq_refl).
Qed.

(** C9.  In every reachable configuration the [results] state is the
    initial four-category map, [calculateTotalScore] of it is 70, and
    whenever some link is displayed the heading shows 70 in the moderate
    class, whatever was fetched. *)
Theorem results_never_updated (c : Config) :
  reachable c ->
  results (panel c) = initial_results /\
  calculateTotalScore (results (panel c)) = Finite 70 /\
  (links (panel c) <> [] ->
   render_score (panel c) = Some (Finite 70, "text-blue-600")).
Proof.
  intros Hc. pose proof (reachable_results c Hc) as Hr.
  split; [exact Hr|]. split; [rewrite Hr; apply initial_score|].
  intros Hl. unfold render_score. destruct (links (panel c)); [congruence|].
  rewrite Hr, initial_score, initial_class. reflexivity.
Qed.

Lemma results_never_updated_witness :
  links (panel scenario_config) <> [] /\
  render_score (panel scenario_config) = Some (Finite 70, "text-blue-600").
Proof.
  split; [discriminate|].
  apply (results_never_updated scenario_config scenario_config_reachable).
  discriminate.
Defined.

(** C10.  After a sendLinks notification has been handled, the entry stored
    for each link has the link's href, text, type and pageTitle unchanged;
    when its fetch rejected the entry is the link itself with no analysis
    (and nothing else) attached, and when its fetch succeeded the entry is
    the link with that analysis added. *)
Theorem stored_link_frame (m : ContentScriptMessage) (w : Settlement) (s : Panel)
    (i : nat) (l : LinkData) (f : Completion Response) :
  action m = "sendLinks" ->
  length (fetches w) = length (message_links m) ->
  (forall j, (j < length (message_links m))%nat -> j ∈ order w) ->
  message_links m !! i = Some l ->
  fetches w !! i = Some f ->
  exists e,
    links (run_from w (messageListener m) s) !! i = Some e /\
    href (link e) = href l /\ text (link e) = text l /\
    type (link e) = type l /\ pageTitle (link e) = pageTitle l /\
    (forall err, fetchAnalysis f = Throws err ->
                 e = {| link := l; analysis := None |}) /\
    (forall a, fetchAnalysis f = Returns a ->
               e = {| link := l; analysis := Some a |}).
Proof.
  intros Ha Hlen Hcover Hl Hf.
  destruct (messageListener_run_from m w Ha Hlen Hcover s) as (entries & Hp & Hs).
  destruct (batch_settles _ _ _ Hlen Hcover) as (entries' & Hp' & _ & Hpt & _).
  assert (entries' = entries) by congruence. subst entries'.
  destruct (Hpt i l f Hl Hf) as (e & He & Hr).
  exists e. rewrite Hs. cbn [links]. split; [exact He|].
  unfold analyseLink in Hr. destruct (fetchAnalysis f) as [a|err].
  - injection Hr as <-. destruct l. unfold spread_with_analysis. simpl.
    repeat split; intros; try discriminate. simplify_eq. reflexivity.
  - injection Hr as <-. unfold as_is. simpl.
    repeat split; intros; try discriminate.
Qed.

Lemma stored_link_frame_witness :
  exists e,
    links (run_from scenario_settlement (messageListener scenario_message)
             initial_panel) !! 1%nat = Some e /\
    e = {| link := priv_link; analysis := None |}.
Proof.
  destruct (stored_link_frame scenario_message scenario_settlement initial_panel
              1%nat priv_link (Throws (Error "Failed to fetch")))
    as (e & He & _ & _ & _ & _ & Hfail & _).
  - reflexivity.
  - reflexivity.
  - intros [|[|i]] Hi; [right; left | left | simpl in Hi; lia].
  - reflexivity.
  - reflexivity.
  - exists e. split; [exact He|]. apply (Hfail (Error "Failed to fetch")). reflexivity.
Defined.

(** C5 (amended).  For every delivered link set, every link, failed or
    not, is kept for display in the order delivered, but the composite
    score the panel shows is not computed from the fetched analyses: it is
    [calculateTotalScore] of the component's own initial [results], the
    same whatever the fetches settled to. *)
Theorem composite_ignores_analyses (c : Config) (m : ContentScriptMessage)
    (w : Settlement) :
  reachable c ->
  action m = "sendLinks" ->
  length (fetches w) = length (message_links m) ->
  (forall i, (i < length (message_links m))%nat -> i ∈ order w) ->
  let s' := run_from w (messageListener m) (panel c) in
  length (links s') = length (message_links m) /\
  (forall i l, message_links m !! i = Some l ->
     exists e, links s' !! i = Some e /\ link e = l) /\
  results s' = initial_results /\
  render_score s' =
    match message_links m with
    | [] => None
    | _ :: _ => Some (calculateTotalScore initial_results,
                      scoreClass (calculateTotalScore initial_results))
    end.
Proof.
  intros Hc Ha Hlen Hcover s'.
  destruct (messageListener_run_from m w Ha Hlen Hcover (panel c))
    as (entries & Hp & Hs).
  destruct (batch_settles _ _ _ Hlen Hcover) as (entries' & Hp' & Hl & Hpt & _).
  assert (entries' = entries) by congruence. subst entries'.
  subst s'. rewrite Hs. cbn [links results].
  split; [exact Hl|]. split; [|split].
  - intros i l Hi.
    assert (Hi' : (i < length (fetches w))%nat).
    { rewrite Hlen. eapply lookup_lt_Some. exact Hi. }
    apply lookup_lt_is_Some in Hi' as [f Hf].
    destruct (Hpt i l f Hi Hf) as (e & He & Hr).
    destruct (analyseLink_returns l f) as (e' & Hr' & Hlk & _).
    exists e. split; [exact He|]. congruence.
  - apply reachable_results. exact Hc.
  - unfold render_score. cbn [links results].
    rewrite (reachable_results c Hc).
    destruct (message_links m), entries; try discriminate; reflexivity.
Qed.

Lemma composite_ignores_analyses_witness :
  render_score
    (run_from scenario_settlement (messageListener scenario_message)
       (panel initial_config)) =
  Some (calculateTotalScore initial_results,
        scoreClass (calculateTotalScore initial_results)).
Proof.
  apply (composite_ignores_analyses initial_config scenario_message
           scenario_settlement).
  - apply reachable_initial.
  - reflexivity.
  - reflexivity.
  - intros [|[|i]] Hi; [right; left | left | simpl in Hi; lia].
Defined.

(** C5 as stated fails on the scenario of the specification: the union of
    the successful category maps is the first link's map, whose composite
    is 50, but the panel shows 70. *)
Lemma scenario_composite_not_from_analyses :
  let s' := run_from scenario_settlement (messageListener scenario_message) initial_panel in
  links s' = [ {| link := tos_link; analysis := Some scenario_analysis |};
               {| link := priv_link; analysis := None |} ] /\
  render_score s' = Some (Finite 70, "text-blue-600") /\
  calculateTotalScore (successful_category_maps (links s')) = Finite 50.
Proof.
  split; [reflexivity|]. split; vm_compute; reflexivity.
Qed.

(** * injectScript *)




(** * Scores outside the contract *)

(** C8 (amended).  No range check is made where an analysis comes in: when
    a notification has been handled, a successful response is attached to
    its link as it is, whatever its scores, and nothing is rejected.  An
    out-of-range score still never reaches the aggregation arithmetic: the
    heading shown next is [calculateTotalScore] of the [results] state,
    which is still the initial map, all of whose scores are in [0,5]; so
    it shows 70 whatever was fetched. *)
Theorem out_of_range_score_not_aggregated (c : Config) (m : ContentScriptMessage)
    (w : Settlement) (i : nat) (l : LinkData) (response : Response)
    (a : ApiResponse) :
  reachable c ->
  action m = "sendLinks" ->
  length (fetches w) = length (message_links m) ->
  (forall j, (j < length (message_links m))%nat -> j ∈ order w) ->
  message_links m !! i = Some l ->
  fetches w !! i = Some (Returns response) ->
  ok response = true ->
  json response = Returns a ->
  let s' := run_from w (messageListener m) (panel c) in
  (run w (messageListener m)).2 = Fulfilled /\
  links s' !! i = Some {| link := l; analysis := Some a |} /\
  results s' = initial_results /\
  Forall (fun sd => score_in_range sd = true) (Object_values (scores (results s'))) /\
  render_score s' =
    Some (calculateTotalScore (results s'), scoreClass (calculateTotalScore (results s'))) /\
  render_score s' = Some (Finite 70, "text-blue-600") /\
  exists breakdown sources,
    content (Sidebar_view s') = Analysed (Finite 70) "text-blue-600" breakdown sources.
Proof.
  intros Hc Ha Hlen Hcover Hl Hf Hok Hj s'.
  destruct (messageListener_run m w Ha Hlen Hcover) as (entries0 & Hp0 & Hrun).
  destruct (messageListener_run_from m w Ha Hlen Hcover (panel c)) as (entries & Hp & Hs).
  destruct (batch_settles _ _ _ Hlen Hcover) as (entries' & Hp' & _ & Hpt & _).
  assert (entries' = entries) by congruence. subst entries'.
  destruct (Hpt i l _ Hl Hf) as (e & He & Hr).
  assert (Hentry : e = {| link := l; analysis := Some a |}).
  { unfold analyseLink, fetchAnalysis in Hr. rewrite Hok, Hj in Hr. cbn in Hr.
    injection Hr as <-. destruct l. reflexivity. }
  subst e. subst s'. rewrite Hs, Hrun.
  unfold render_score, Sidebar_view. cbn [links results content snd].
  rewrite (reachable_results c Hc), initial_score, initial_class.
  split; [reflexivity|]. split; [exact He|]. split; [reflexivity|].
  split; [repeat constructor|].
  destruct entries as [|e0 entries]; [discriminate He|].
  split; [reflexivity|]. split; [reflexivity|]. eauto.
Qed.

Lemma out_of_range_score_not_aggregated_witness :
  links (run_from out_of_range_settlement (messageListener single_link_message)
           (panel initial_config)) !! 0%nat =
    Some {| link := tos_link; analysis := Some out_of_range_analysis |} /\
  render_score (run_from out_of_range_settlement (messageListener single_link_message)
                  (panel initial_config)) = Some (Finite 70, "text-blue-600").
Proof.
  destruct (out_of_range_score_not_aggregated initial_config single_link_message
              out_of_range_settlement 0%nat tos_link
              {| ok := true; json := Returns out_of_range_analysis |}
              out_of_range_analysis)
    as (_ & Hstored & _ & _ & _ & Hshown & _).
  - apply reachable_initial.
  - reflexivity.
  - reflexivity.
  - intros [|j] Hj; [left | simpl in Hj; lia].
  - reflexivity.
  - reflexivity.
  - reflexivity.
  - reflexivity.
  - split; [exact Hstored | exact Hshown].
Defined.

(** C8 as stated fails: an analysis whose score is 7 is not rejected; the
    listener stores it with its link and acknowledges as usual. *)
Lemma out_of_range_score_accepted :
  run out_of_range_settlement (messageListener single_link_message) =
    ([ setLinks [ {| link := tos_link; analysis := Some out_of_range_analysis |} ];
       setError None; sendResponse {| farewell := "goodbye" |} ], Fulfilled) /\
  Forall (fun sd => score_in_range sd = false)
    (Object_values (scores (api_scores out_of_range_analysis))).
Proof.
  split; [reflexivity | repeat constructor].
Qed.

(** * The score heading *)

(** C4.  The class of the score heading is the low-trust one
    (text-red-500) when p <= 40, the moderate one (text-blue-600) when
    40 < p <= 80 and the high-trust one (text-purple-500) when p > 80; so
    40 is low-trust, 41 and 80 are moderate and 81 is high-trust. *)
Theorem tier_classification (p : Q) :
  ((p <= 40)%Q -> scoreClass (Finite p) = "text-red-500") /\
  ((40 < p)%Q -> (p <= 80)%Q -> scoreClass (Finite p) = "text-blue-600") /\
  ((80 < p)%Q -> scoreClass (Finite p) = "text-purple-500") /\
  scoreClass (Finite 40) = "text-red-500" /\
  scoreClass (Finite 41) = "text-blue-600" /\
  scoreClass (Finite 80) = "text-blue-600" /\
  scoreClass (Finite 81) = "text-purple-500".
Proof.
  unfold scoreClass, le.
  repeat split; try reflexivity.
  - intros H. apply Qle_bool_iff in H. rewrite H. reflexivity.
  - intros H1 H2.
    destruct (Qle_bool p 40) eqn:Hc; [apply Qle_bool_iff in Hc; lra|].
    apply Qle_bool_iff in H2. rewrite H2. reflexivity.
  - intros H.
    destruct (Qle_bool p 40) eqn:Hc; [apply Qle_bool_iff in Hc; lra|].
    destruct (Qle_bool p 80) eqn:Hd; [apply Qle_bool_iff in Hd; lra|].
    reflexivity.
Qed.

Lemma tier_classification_witness :
  scoreClass (Finite 40) = "text-red-500" /\
  scoreClass (Finite (161 # 2)) = "text-purple-500".
Proof.
  split.
  - apply (proj1 (tier_classification 40)). unfold Qle. simpl. lia.
  - apply (proj1 (proj2 (proj2 (tier_classification (161 # 2))))). reflexivity.
Defined.

(** C3 (amended).  Applying [calculateTotalScore] to a map with no category
    raises nothing: 0 / 0 is NaN, which [Math.round] returns unchanged, and
    both comparisons of the heading fail on it, so the heading takes the
    last class. *)
Theorem empty_map_yields_NaN (r : Results) :
  scores r = [] ->
  calculateTotalScore r = NaN /\
  scoreClass (calculateTotalScore r) = "text-purple-500".
Proof.
  intros H. unfold calculateTotalScore. rewrite H. split; reflexivity.
Qed.

Lemma empty_map_yields_NaN_witness :
  calculateTotalScore {| scores := [] |} = NaN /\
  scoreClass (calculateTotalScore {| scores := [] |}) = "text-purple-500".
Proof. apply (empty_map_yields_NaN {| scores := [] |}). reflexivity. Defined.

(** C3 as stated fails: on the empty map the function returns a value of
    type number, NaN, and no error. *)
Lemma empty_map_returns_a_number : calculateTotalScore {| scores := [] |} = NaN.
Proof. reflexivity. Qed.

(** * More on the aggregation *)

Lemma fl_compat (x y : Q) : (x == y)%Q -> fl x = fl y.
Proof. intros H. unfold fl. rewrite (Qred_complete x y H). reflexivity. Qed.

Lemma Qis_zero_compat (x y : Q) : (x == y)%Q -> Qis_zero x = Qis_zero y.
Proof.
  intros H. unfold Qis_zero. destruct x as [a b], y as [c d].
  unfold Qeq in H. simpl in *.
  destruct (Z.eqb_spec a 0), (Z.eqb_spec c 0); try reflexivity; nia.
Qed.

Lemma Qsign_neg_compat (x y : Q) : (x == y)%Q -> Qsign_neg x = Qsign_neg y.
Proof.
  intros H. unfold Qsign_neg. destruct x as [a b], y as [c d].
  unfold Qeq in H. simpl in *.
  destruct (Z.ltb_spec a 0), (Z.ltb_spec c 0); try reflexivity; nia.
Qed.

Lemma div_compat_l (x y : Q) (b : number) :
  (x == y)%Q -> div (Finite x) b = div (Finite y) b.
Proof.
  intros H. destruct b as [| s | z]; try reflexivity. cbn [div].
  rewrite (Qis_zero_compat x y H), (Qsign_neg_compat x y H).
  destruct (Qis_zero z); [reflexivity|].
  apply fl_compat. rewrite H. reflexivity.
Qed.

Lemma calculateTotalScore_of_sum (r : Results) :
  let l := Object_values (scores r) in
  Forall (fun sd => score_in_range sd = true) l ->
  Z.of_nat (length l) < 2 ^ 40 ->
  calculateTotalScore r = percentage_of (sum_scores l) (Z.of_nat (length l)).
Proof.
  intros l Hall Hn. unfold calculateTotalScore, percentage_of. fold l.
  destruct (totalScores_exact l 0%Q 0 Hall) as (t & Ht & Htz & HS);
    [reflexivity | lia | lia |].
  rewrite Z.add_0_l in Htz. rewrite Ht.
  destruct (fl_integer (inject_Z (sum_scores l)) (sum_scores l)) as (t' & Ht' & Htz');
    [reflexivity | lia |].
  unfold of_Z at 1. rewrite Ht'. unfold of_nat.
  rewrite (div_compat_l t t'); [reflexivity|].
  rewrite Htz, Htz'. reflexivity.
Qed.

(** X1.  For maps within the contract, the composite depends only on how
    many categories there are and on the total of their scores: not on the
    names, the quotes, the order of the categories or how the total is
    spread over them. *)
Theorem score_depends_on_sum_and_count (r1 r2 : Results) :
  let l1 := Object_values (scores r1) in
  let l2 := Object_values (scores r2) in
  Forall (fun sd => score_in_range sd = true) l1 ->
  Forall (fun sd => score_in_range sd = true) l2 ->
  length l1 = length l2 ->
  Z.of_nat (length l1) < 2 ^ 40 ->
  sum_scores l1 = sum_scores l2 ->
  calculateTotalScore r1 = calculateTotalScore r2.
Proof.
  intros l1 l2 H1 H2 Hlen Hn Hsum.
  rewrite (calculateTotalScore_of_sum r1 H1 Hn).
  rewrite (calculateTotalScore_of_sum r2 H2); fold l1 l2; [|rewrite <- Hlen; exact Hn].
  rewrite Hsum, Hlen. reflexivity.
Qed.

Lemma score_depends_on_sum_and_count_witness :
  calculateTotalScore initial_results = calculateTotalScore reordered_results.
Proof.
  apply score_depends_on_sum_and_count.
  - repeat constructor.
  - repeat constructor.
  - reflexivity.
  - reflexivity.
  - reflexivity.
Defined.

Lemma sum_scores_uniform (k : Z) (l : list ScoreData) :
  Forall (fun sd => score_integer sd = Some k) l ->
  sum_scores l = k * Z.of_nat (length l).
Proof.
  induction 1 as [|sd l Hsd _ IH]; [simpl; lia|].
  cbn [sum_scores foldr length]. fold (sum_scores l).
  rewrite Hsd, IH, Nat2Z.inj_succ. cbn [default id]. lia.
Qed.

Lemma percentage_of_uniform (k n : Z) :
  0 <= k <= 5 -> 0 < n < 2 ^ 40 ->
  percentage_of (k * n) n = Finite (inject_Z (20 * k)).
Proof.
  intros Hk Hn. unfold percentage_of.
  assert (HnQ : (0 < inject_Z n)%Q).
  { change 0%Q with (inject_Z 0). rewrite <- Zlt_Qlt. lia. }
  destruct (fl_integer (inject_Z (k * n)) (k * n)) as (t & Ht & Htz);
    [reflexivity | nia |].
  destruct (fl_integer (inject_Z n) n) as (y & Hy & Hyz); [reflexivity | lia |].
  destruct (fl_integer (y * 5)%Q (5 * n)) as (m & Hm & Hmz).
  { rewrite Hyz, inject_Z_mult. change (inject_Z 5) with 5%Q. ring. }
  { lia. }
  unfold of_Z. rewrite Ht, Hy. cbn [mul]. rewrite Hm. cbn [div].
  assert (Hmnz : ~ (m == 0)%Q).
  { rewrite Hmz, inject_Z_mult. change (inject_Z 5) with 5%Q. lra. }
  rewrite (Qis_zero_false m Hmnz).
  assert (Hq : (t / m == inject_Z k / 5)%Q).
  { rewrite Htz, Hmz, !inject_Z_mult. change (inject_Z 5) with 5%Q. field. lra. }
  rewrite (fl_compat _ _ Hq).
  assert (Hcases : k = 0 \/ k = 1 \/ k = 2 \/ k = 3 \/ k = 4 \/ k = 5) by lia.
  destruct Hcases as [-> | [-> | [-> | [-> | [-> | ->]]]]]; vm_compute; reflexivity.
Qed.

(** X2.  When every category has the same score k in [0,5] the composite
    is exactly 20 * k, for any number of categories: 0 when all are 0 and
    100 when all are 5, with no rounding error. *)
Theorem uniform_scores_exact (r : Results) (k : Z) :
  let l := Object_values (scores r) in
  l <> [] ->
  Forall (fun sd => score_integer sd = Some k) l ->
  0 <= k <= 5 ->
  Z.of_nat (length l) < 2 ^ 40 ->
  calculateTotalScore r = Finite (inject_Z (20 * k)).
Proof.
  intros l Hne Hall Hk Hn.
  assert (Hrange : Forall (fun sd => score_in_range sd = true) l).
  { eapply Forall_impl; [exact Hall|]. intros sd Hsd. unfold score_in_range.
    rewrite Hsd. apply andb_true_iff. split; apply Z.leb_le; lia. }
  rewrite (calculateTotalScore_of_sum r Hrange Hn). fold l.
  rewrite (sum_scores_uniform k l Hall).
  apply percentage_of_uniform; [exact Hk|].
  split; [|exact Hn]. destruct l; [congruence | simpl; lia].
Qed.

Lemma uniform_scores_exact_witness : calculateTotalScore all_threes = Finite 60.
Proof.
  apply (uniform_scores_exact all_threes 3).
  - discriminate.
  - repeat constructor.
  - lia.
  - reflexivity.
Defined.

Lemma fold_add_NaN (l : list ScoreData) :
  fold_left (fun sum scoreData => add sum (score scoreData)) l NaN = NaN.
Proof. induction l as [|sd l IH]; [reflexivity | exact IH]. Qed.

Lemma add_NaN_r (a : number) : add a NaN = NaN.
Proof. destruct a; reflexivity. Qed.

(** X3.  One NaN score makes the whole composite NaN, whatever the other
    scores are; nothing is thrown, and the heading takes the last class,
    the one of the best scores. *)
Theorem NaN_score_poisons_total (r : Results) (sd : ScoreData) :
  sd ∈ Object_values (scores r) ->
  score sd = NaN ->
  calculateTotalScore r = NaN /\
  scoreClass (calculateTotalScore r) = "text-purple-500".
Proof.
  intros Hin Hnan.
  assert (Hc : calculateTotalScore r = NaN).
  { unfold calculateTotalScore.
    assert (Hfold : forall l acc, sd ∈ l ->
              fold_left (fun sum scoreData => add sum (score scoreData)) l acc = NaN).
    { induction l as [|x l IH]; intros acc Hx; [inversion Hx|].
      apply elem_of_cons in Hx as [<- | Hx].
      - cbn [fold_left]. rewrite Hnan, add_NaN_r. apply fold_add_NaN.
      - cbn [fold_left]. apply IH, Hx. }
    rewrite (Hfold _ _ Hin). reflexivity. }
  rewrite Hc. split; reflexivity.
Qed.

Lemma NaN_score_poisons_total_witness : calculateTotalScore with_NaN_score = NaN.
Proof.
  apply (NaN_score_poisons_total with_NaN_score {| quotes := []; score := NaN |}).
  - right. left.
  - reflexivity.
Defined.

(** * Rounding is monotone *)

Section Monotone.

Local Open Scope Q_scope.

Lemma round_half_even_comp x y : x == y -> round_half_even x = round_half_even y.
Proof.
  intros H. unfold round_half_even.
  rewrite (Qfloor_comp x y H).
  assert (Hc : (x - inject_Z (Qfloor y) ?= 1 # 2) = (y - inject_Z (Qfloor y) ?= 1 # 2)).
  { apply Qcompare_comp; [rewrite H; reflexivity | reflexivity]. }
  rewrite Hc. reflexivity.
Qed.

Lemma round_half_even_mono x y : x <= y -> (round_half_even x <= round_half_even y)%Z.
Proof.
  intros H.
  pose proof (Qfloor_resp_le x y H) as Hfl.
  destruct (Z.eq_dec (Qfloor x) (Qfloor y)) as [Heq|Hne].
  - unfold round_half_even. rewrite Heq.
    destruct (Qcompare_spec (x - inject_Z (Qfloor y)) (1 # 2)) as [Hx|Hx|Hx];
    destruct (Qcompare_spec (y - inject_Z (Qfloor y)) (1 # 2)) as [Hy|Hy|Hy];
      try destruct (Z.even (Qfloor y)); try lia; lra.
  - destruct (round_half_even_spec x) as [_ Hx]. destruct (round_half_even_spec y) as [Hy _].
    pose proof (Qlt_floor x) as Hx1. pose proof (Qfloor_le y) as Hy1.
    assert (Hz : (Qfloor x + 1 <= Qfloor y)%Z) by lia.
    rewrite Zle_Qle in Hz.
    unfold round_half_even.
    pose proof (Qfloor_le x) as Hx0. pose proof (Qlt_floor y) as Hy0.
    rewrite !inject_Z_plus in *. change (inject_Z 1) with 1 in *.
    destruct (Qcompare_spec (x - inject_Z (Qfloor x)) (1 # 2));
    destruct (Qcompare_spec (y - inject_Z (Qfloor y)) (1 # 2));
      try destruct (Z.even (Qfloor x)); try destruct (Z.even (Qfloor y)); lia.
Qed.

Lemma ilog2_unique x e : 0 < x -> pow2 e <= x -> x < pow2 (e + 1) -> ilog2 x = e.
Proof.
  intros Hx H1 H2. destruct (ilog2_spec x Hx) as [H3 H4].
  assert (e < ilog2 x + 1)%Z by (apply pow2_lt_inv; lra).
  assert (ilog2 x < e + 1)%Z by (apply pow2_lt_inv; lra).
  lia.
Qed.

Lemma ilog2_comp x y : 0 < x -> x == y -> ilog2 x = ilog2 y.
Proof.
  intros Hx H. destruct (ilog2_spec x Hx) as [H1 H2].
  symmetry. apply ilog2_unique; lra.
Qed.

(** What rounding computes in the normal range. *)
Lemma fl_normal_form x :
  pow2 (-1022) <= x -> x < pow2 1023 ->
  fl x = Finite (inject_Z (round_half_even (x / pow2 (ilog2 x - 52))) *
                 pow2 (ilog2 x - 52)).
Proof.
  intros Hlo Hhi. pose proof (pow2_pos (-1022)) as Hp.
  assert (Hx : 0 < x) by lra.
  destruct (Qred_num_pos x Hx) as [p Hp'].
  pose proof (Qred_correct x) as Hr.
  unfold fl. rewrite Hp'.
  destruct (round_pos_normal (Qred x)) as (y & Hy & _); [lra | lra |].
  assert (He : ulp_exp (Qred x) = (ilog2 x - 52)%Z).
  { destruct (ilog2_spec x Hx) as [H1 H2].
    assert (-1022 < ilog2 x + 1)%Z by (apply pow2_lt_inv; lra).
    unfold ulp_exp, prec, emin. rewrite (ilog2_comp (Qred x) x) by lra. lia. }
  unfold round_pos in *. rewrite He in *.
  rewrite (round_half_even_comp (Qred x / pow2 (ilog2 x - 52)) (x / pow2 (ilog2 x - 52)))
    in * by (rewrite Hr; reflexivity).
  destruct (Qle_bool _ _); [discriminate | reflexivity].
Qed.

Lemma round_half_even_lower (v : Q) (N : Z) :
  inject_Z N <= v -> (N <= round_half_even v)%Z.
Proof.
  intros H. destruct (round_half_even_spec v) as [_ H2].
  assert (Hlt : inject_Z N < inject_Z (round_half_even v + 1)).
  { rewrite inject_Z_plus. change (inject_Z 1) with 1. lra. }
  rewrite <- Zlt_Qlt in Hlt. lia.
Qed.

Lemma round_half_even_upper (v : Q) (N : Z) :
  v <= inject_Z N -> (round_half_even v <= N)%Z.
Proof.
  intros H. destruct (round_half_even_spec v) as [H1 _].
  assert (Hlt : inject_Z (round_half_even v) < inject_Z (N + 1)).
  { rewrite inject_Z_plus. change (inject_Z 1) with 1. lra. }
  rewrite <- Zlt_Qlt in Hlt. lia.
Qed.

Lemma fl_mono_normal x y a b :
  pow2 (-1022) <= x -> x <= y -> y < pow2 1023 ->
  fl x = Finite a -> fl y = Finite b -> a <= b.
Proof.
  intros Hlo Hxy Hhi Ha Hb. pose proof (pow2_pos (-1022)) as Hp.
  rewrite fl_normal_form in Ha by lra. rewrite fl_normal_form in Hb by lra.
  injection Ha as <-. injection Hb as <-.
  destruct (ilog2_spec x) as [Hx1 Hx2]; [lra|].
  destruct (ilog2_spec y) as [Hy1 Hy2]; [lra|].
  assert (Hle : (ilog2 x < ilog2 y + 1)%Z) by (apply pow2_lt_inv; lra).
  set (ex := ilog2 x) in *. set (ey := ilog2 y) in *.
  pose proof (pow2_pos (ex - 52)) as HEx. pose proof (pow2_pos (ey - 52)) as HEy.
  pose proof (scaled_spec x (ex - 52)) as Hsx. pose proof (scaled_spec y (ey - 52)) as Hsy.
  assert (H52 : forall e, pow2 e == pow2 (e - 52) * inject_Z (2 ^ 52)).
  { intros e. rewrite <- (pow2_inject 52) by lia. rewrite <- pow2_add.
    replace (e - 52 + 52)%Z with e by lia. reflexivity. }
  destruct (Z.eq_dec ex ey) as [Heq|Hne].
  - rewrite <- Heq in *.
    assert (Hs : x / pow2 (ex - 52) <= y / pow2 (ex - 52)).
    { apply Qmult_le_r with (z := pow2 (ex - 52)); [exact HEx|]. lra. }
    apply round_half_even_mono in Hs. rewrite Zle_Qle in Hs.
    apply Qmult_le_compat_r; lra.
  - assert (Hlt : (ex + 1 <= ey)%Z) by lia.
    assert (Hmid : pow2 (ex + 1) <= pow2 ey) by (apply pow2_le; lia).
    (* fl x <= 2^(ex+1) *)
    assert (Hux : (round_half_even (x / pow2 (ex - 52)) <= 2 ^ 53)%Z).
    { apply round_half_even_upper.
      apply Qmult_le_r with (z := pow2 (ex - 52)); [exact HEx|].
      rewrite Hsx. 
      assert (Hq : inject_Z (2 ^ 53) * pow2 (ex - 52) == pow2 (ex + 1)).
      { rewrite <- (pow2_inject 53) by lia. rewrite <- pow2_add.
        replace (53 + (ex - 52))%Z with (ex + 1)%Z by lia. reflexivity. }
      rewrite Hq. lra. }
    assert (Hly : (2 ^ 52 <= round_half_even (y / pow2 (ey - 52)))%Z).
    { apply round_half_even_lower.
      apply Qmult_le_r with (z := pow2 (ey - 52)); [exact HEy|].
      rewrite Hsy. rewrite Qmult_comm, <- H52. exact Hy1. }
    rewrite Zle_Qle in Hux, Hly.
    assert (Hq53 : inject_Z (2 ^ 53) * pow2 (ex - 52) == pow2 (ex + 1)).
    { rewrite <- (pow2_inject 53) by lia. rewrite <- pow2_add.
      replace (53 + (ex - 52))%Z with (ex + 1)%Z by lia. reflexivity. }
    assert (H1 : inject_Z (round_half_even (x / pow2 (ex - 52))) * pow2 (ex - 52)
                 <= inject_Z (2 ^ 53) * pow2 (ex - 52))
      by (apply Qmult_le_compat_r; lra).
    assert (H2 : inject_Z (2 ^ 52) * pow2 (ey - 52)
                 <= inject_Z (round_half_even (y / pow2 (ey - 52))) * pow2 (ey - 52))
      by (apply Qmult_le_compat_r; lra).
    pose proof (H52 ey) as H3. lra.
Qed.

Lemma fl_mono x y a b :
  0 <= x -> x <= y -> (x == 0 \/ pow2 (-1022) <= x) -> y < pow2 1023 ->
  fl x = Finite a -> fl y = Finite b -> a <= b.
Proof.
  intros H0 Hxy Hx Hhi Ha Hb. pose proof (pow2_pos (-1022)) as Hp.
  destruct Hx as [Hz|Hn].
  - rewrite (fl_zero x Hz) in Ha. injection Ha as <-.
    destruct (Qlt_le_dec y (pow2 (-1022))) as [Hsmall|Hbig].
    + (* y may be subnormal: its rounding is still not negative *)
      destruct (Qeq_dec y 0) as [Hy0|Hyn].
      * rewrite (fl_zero y Hy0) in Hb. injection Hb as <-. lra.
      * assert (Hyp : 0 < y) by lra.
        destruct (Qred_num_pos y Hyp) as [p Hp'].
        unfold fl in Hb. rewrite Hp' in Hb. unfold round_pos in Hb.
        destruct (Qle_bool _ _); [discriminate|]. injection Hb as <-.
        apply Qmult_le_0_compat; [|apply Qlt_le_weak, pow2_pos].
        change 0 with (inject_Z 0). rewrite <- Zle_Qle.
        apply round_half_even_lower. change (inject_Z 0) with 0.
        pose proof (Qred_correct y) as Hr.
        apply Qle_shift_div_l; [apply pow2_pos|]. lra.
    + destruct (fl_normal y Hbig Hhi) as (b' & Hb' & Hb1 & _).
      assert (b' = b) by congruence. subst b'.
      assert (Hu1 : pow2 (-53) <= 1).
      { change 1 with (pow2 0). apply pow2_le. lia. }
      assert (y * pow2 (-53) <= y * 1) by (apply Qmult_le_l; lra). lra.
  - apply (fl_mono_normal x y); assumption.
Qed.

End Monotone.

Section MonotoneComposite.

Local Open Scope Q_scope.

(** The two roundings inside [(S / M) * 100], for integers [0 <= S <= M]. *)
Lemma percentage_steps (t m : Q) (S M : Z) :
  t == inject_Z S -> m == inject_Z M ->
  (0 <= S <= M)%Z -> (0 < M < 2 ^ 50)%Z ->
  exists q p',
    fl (t / m) = Finite q /\ fl (q * 100) = Finite p' /\
    0 <= q /\ (q == 0 \/ pow2 (-1022) <= q) /\ q * 100 < pow2 1023 /\
    (t / m == 0 \/ pow2 (-1022) <= t / m) /\ 0 <= t / m /\ t / m < pow2 1023.
Proof.
  intros Ht Hm HS HM.
  assert (HMq : 0 < inject_Z M) by (apply inject_Z_pos; lia).
  assert (Hhigh : 256 <= pow2 1023).
  { assert (H8 : pow2 8 == 256) by reflexivity. rewrite <- H8. apply pow2_le. lia. }
  destruct (Z.eq_dec S 0%Z) as [-> | HS0].
  { assert (Hx : t / m == 0) by (rewrite Ht; field; lra).
    exists 0, 0. rewrite (fl_zero _ Hx).
    assert (Hx' : 0 * 100 == 0) by ring. rewrite (fl_zero _ Hx').
    repeat split; try reflexivity; try lra; try (left; lra). }
  assert (HSq : 1 <= inject_Z S) by (change 1 with (inject_Z 1); rewrite <- Zle_Qle; lia).
  assert (HSM : inject_Z S <= inject_Z M) by (rewrite <- Zle_Qle; lia).
  assert (HM50 : inject_Z M < pow2 50).
  { rewrite pow2_inject by lia. rewrite <- Zlt_Qlt. lia. }
  assert (Hinv : pow2 50 * pow2 (-50) == 1) by (rewrite <- pow2_add; reflexivity).
  pose proof (pow2_pos (-50)) as Hp50. pose proof (pow2_pos 50) as Hq50.
  set (x := t / m).
  assert (Hxm : x * inject_Z M == inject_Z S) by (unfold x; rewrite Ht, Hm; field; lra).
  assert (Hx1 : x <= 1).
  { destruct (Qlt_le_dec 1 x) as [Hgt|]; [exfalso|assumption].
    assert (0 <= (x - 1) * inject_Z M) by (apply Qmult_le_0_compat; lra). nra. }
  assert (Hx0 : pow2 (-50) <= x).
  { destruct (Qlt_le_dec x (pow2 (-50))) as [Hlt|]; [exfalso|assumption].
    assert (0 <= (pow2 (-50) - x) * inject_Z M) by (apply Qmult_le_0_compat; lra).
    assert (0 <= pow2 (-50) * (pow2 50 - inject_Z M)) by (apply Qmult_le_0_compat; lra).
    nra. }
  assert (Hlow : pow2 (-1022) <= pow2 (-51)) by (apply pow2_le; lia).
  assert (Hlow' : pow2 (-51) == pow2 (-50) * (1 # 2)) by (apply (pow2_pred (-50))).
  pose proof (pow2_pos (-53)) as Hu.
  assert (Hu1 : pow2 (-53) <= (1 # 2)).
  { assert (H1 : pow2 (-1) == (1 # 2)) by reflexivity. rewrite <- H1. apply pow2_le. lia. }
  destruct (fl_normal x) as (q & Hq & Hq1 & Hq2); [lra | lra |].
  assert (Hxu : 0 <= x * pow2 (-53)) by (apply Qmult_le_0_compat; lra).
  assert (Hxu' : x * pow2 (-53) <= x * (1 # 2)) by (apply Qmult_le_l; lra).
  destruct (fl_normal (q * 100)) as (p' & Hp & _); [lra | lra |].
  exists q, p'. repeat split; try assumption; try lra; try (right; lra).
Qed.

Lemma percentage_of_mono (S1 S2 n : Z) :
  (0 <= S1)%Z -> (S1 <= S2)%Z -> (S2 <= 5 * n)%Z -> (0 < n < 2 ^ 40)%Z ->
  exists p1 p2 : Z,
    percentage_of S1 n = Finite (inject_Z p1) /\
    percentage_of S2 n = Finite (inject_Z p2) /\ (p1 <= p2)%Z.
Proof.
  intros H0 H12 H2 Hn. unfold percentage_of.
  destruct (fl_integer (inject_Z S1) S1) as (t1 & Ht1 & Htz1); [reflexivity | lia |].
  destruct (fl_integer (inject_Z S2) S2) as (t2 & Ht2 & Htz2); [reflexivity | lia |].
  destruct (fl_integer (inject_Z n) n) as (y & Hy & Hyz); [reflexivity | lia |].
  destruct (fl_integer (y * 5) (5 * n)) as (m & Hm & Hmz).
  { rewrite Hyz, inject_Z_mult. change (inject_Z 5) with 5. ring. }
  { lia. }
  unfold of_Z. rewrite Ht1, Ht2, Hy. cbn [mul]. rewrite Hm. cbn [div].
  assert (HMq : 0 < inject_Z (5 * n)) by (apply inject_Z_pos; lia).
  assert (Hmnz : ~ m == 0) by lra.
  rewrite (Qis_zero_false m Hmnz).
  destruct (percentage_steps t1 m S1 (5 * n) Htz1 Hmz)
    as (q1 & p1 & Hq1 & Hp1 & Hq10 & Hq1n & Hq1h & Hx1n & Hx10 & Hx1h); [lia | lia |].
  destruct (percentage_steps t2 m S2 (5 * n) Htz2 Hmz)
    as (q2 & p2 & Hq2 & Hp2 & Hq20 & Hq2n & Hq2h & Hx2n & Hx20 & Hx2h); [lia | lia |].
  rewrite Hq1, Hq2. cbn [mul]. rewrite Hp1, Hp2. cbn [Math_round].
  eexists _, _. split; [reflexivity|]. split; [reflexivity|].
  assert (Hx : t1 / m <= t2 / m).
  { apply Qmult_le_r with (z := m); [lra|].
    assert (E1 : t1 / m * m == t1) by (field; lra).
    assert (E2 : t2 / m * m == t2) by (field; lra).
    rewrite E1, E2, Htz1, Htz2. rewrite <- Zle_Qle. lia. }
  assert (Hq : q1 <= q2) by (apply (fl_mono (t1 / m) (t2 / m)); assumption).
  assert (Hp : p1 <= p2).
  { apply (fl_mono (q1 * 100) (q2 * 100)); try assumption; lra. }
  apply Qfloor_resp_le. lra.
Qed.

End MonotoneComposite.

Lemma sum_scores_bounds (l : list ScoreData) :
  Forall (fun sd => score_in_range sd = true) l ->
  Z.of_nat (length l) < 2 ^ 40 ->
  0 <= sum_scores l <= 5 * Z.of_nat (length l).
Proof.
  intros Hall Hn.
  destruct (totalScores_exact l 0%Q 0 Hall) as (_ & _ & _ & H);
    [reflexivity | lia | lia | exact H].
Qed.

(** X4.  Between two maps within the contract that have the same number of
    categories, the one whose scores total at least as much gets at least
    as high a composite: raising a score never lowers the result, rounding
    included. *)
Theorem composite_monotone (r1 r2 : Results) :
  let l1 := Object_values (scores r1) in
  let l2 := Object_values (scores r2) in
  l1 <> [] ->
  Forall (fun sd => score_in_range sd = true) l1 ->
  Forall (fun sd => score_in_range sd = true) l2 ->
  length l1 = length l2 ->
  Z.of_nat (length l1) < 2 ^ 40 ->
  sum_scores l1 <= sum_scores l2 ->
  exists p1 p2 : Z,
    calculateTotalScore r1 = Finite (inject_Z p1) /\
    calculateTotalScore r2 = Finite (inject_Z p2) /\ p1 <= p2.
Proof.
  intros l1 l2 Hne H1 H2 Hlen Hn Hsum.
  assert (Hn2 : Z.of_nat (length l2) < 2 ^ 40) by (rewrite <- Hlen; exact Hn).
  rewrite (calculateTotalScore_of_sum r1 H1 Hn).
  rewrite (calculateTotalScore_of_sum r2 H2 Hn2). fold l1 l2.
  pose proof (sum_scores_bounds l1 H1 Hn) as Hb1.
  pose proof (sum_scores_bounds l2 H2 Hn2) as Hb2.
  rewrite <- Hlen in *.
  apply percentage_of_mono; try lia.
  split; [|exact Hn]. destruct l1; [congruence | simpl; lia].
Qed.

Lemma composite_monotone_witness :
  exists p1 p2 : Z,
    calculateTotalScore all_threes = Finite (inject_Z p1) /\
    calculateTotalScore {| scores := take 3 (scores reordered_results) |} =
      Finite (inject_Z p2) /\ p1 <= p2.
Proof.
  apply (composite_monotone all_threes {| scores := take 3 (scores reordered_results) |}).
  - discriminate.
  - repeat constructor.
  - repeat constructor.
  - reflexivity.
  - reflexivity.
  - vm_compute. discriminate.
Defined.

(** * The breakdown *)

Lemma get_property_head {A : Type} (o : list (string * A)) (k : string) :
  k ∈ Object_keys o -> is_Some (get_property o k).
Proof.
  unfold Object_keys. induction o as [|[k' v] o IH]; intros Hin.
  - inversion Hin.
  - cbn [get_property]. destruct (String.eqb k' k) eqn:Heq; [eauto|].
    apply IH. rewrite fmap_cons in Hin. apply elem_of_cons in Hin as [->|Hin].
    + rewrite String.eqb_refl in Heq. discriminate.
    + exact Hin.
Qed.

Lemma get_property_unique {A : Type} (o : list (string * A)) (k : string) (v : A) :
  NoDup (Object_keys o) -> (k, v) ∈ o -> get_property o k = Some v.
Proof.
  unfold Object_keys. induction o as [|[k' v'] o IH]; intros Hnd Hin.
  - inversion Hin.
  - rewrite fmap_cons in Hnd. apply NoDup_cons in Hnd as [Hnotin Hnd].
    cbn [get_property]. apply elem_of_cons in Hin as [Heq|Hin].
    + injection Heq as -> ->. rewrite String.eqb_refl. reflexivity.
    + destruct (String.eqb_spec k' k) as [->|_].
      * exfalso. apply Hnotin. apply (list_elem_of_fmap_2 fst) in Hin. exact Hin.
      * apply IH; assumption.
Qed.

Lemma category_row_spec (results : Results) (category : string) (sd : ScoreData) :
  get_property (scores results) category = Some sd ->
  category_row results category = Some (row_of category sd).
Proof. intros H. unfold category_row. rewrite H. reflexivity. Qed.

(** X5.  The breakdown never fails on a property lookup and shows one block
    per category, in the order of [Object.keys]; property names being
    distinct, each block carries the score and quotes of its own category,
    so the breakdown lists exactly the scores the composite is computed
    from, in the same order. *)
Theorem ScoreAccordion_lists_every_category (results : Results) :
  (exists rows,
     ScoreAccordion results = Some rows /\
     row_category <$> rows = Object_keys (scores results)) /\
  (NoDup (Object_keys (scores results)) ->
   ScoreAccordion results =
     Some ((fun '(category, sd) => row_of category sd) <$> scores results)).
Proof.
  split.
  - unfold ScoreAccordion.
    assert (H : forall keys, (forall k, k ∈ keys -> k ∈ Object_keys (scores results)) ->
              exists rows, mapM (category_row results) keys = Some rows /\
                           row_category <$> rows = keys).
    { induction keys as [|k keys IH]; intros Hsub.
      - exists []. split; reflexivity.
      - destruct (get_property_head (scores results) k) as [sd Hsd].
        { apply Hsub. left. }
        destruct IH as (rows & Hm & Hc).
        { intros k' Hk'. apply Hsub. right. exact Hk'. }
        exists (row_of k sd :: rows). split.
        + cbn [mapM]. rewrite (category_row_spec _ _ _ Hsd). cbn. rewrite Hm. reflexivity.
        + rewrite fmap_cons, Hc. reflexivity. }
    apply H. auto.
  - intros Hnd. unfold ScoreAccordion. apply mapM_Some.
    unfold Object_keys. apply Forall2_fmap.
    apply Forall_Forall2_diag. apply Forall_forall. intros [k sd] Hin.
    cbn. apply category_row_spec. apply get_property_unique; assumption.
Qed.

Lemma ScoreAccordion_lists_every_category_witness :
  row_score <$> default [] (ScoreAccordion initial_results) =
  score <$> Object_values (scores initial_results).
Proof.
  destruct (ScoreAccordion_lists_every_category initial_results) as [_ H].
  rewrite H; [reflexivity|].
  apply (bool_decide_unpack _). reflexivity.
Defined.

(** For a score within the contract the progress bar is exact. *)
(** X6.  For a score k within the contract the progress bar of its block
    gets exactly 20 * k: [(score / 5) * 100] has no rounding error on the
    six allowed scores, so the bar is never off its 0-100 scale. *)
Theorem progress_value_exact (category : string) (sd : ScoreData) :
  score_in_range sd = true ->
  exists (k : Z) (y : Q),
    score_integer sd = Some k /\ 0 <= k <= 5 /\
    progress_value (row_of category sd) = Finite y /\ (y == inject_Z (20 * k))%Q.
Proof.
  intros Hr. destruct (score_in_range_spec sd Hr) as (q & k & Hs & Hq & Hk & Hi).
  exists k. cbn [progress_value row_of]. rewrite Hs. cbn [div].
  change (Qis_zero 5) with false. cbn iota.
  assert (Hc : (q / 5 == inject_Z k / 5)%Q) by (rewrite Hq; reflexivity).
  rewrite (fl_compat _ _ Hc).
  assert (Hcases : k = 0 \/ k = 1 \/ k = 2 \/ k = 3 \/ k = 4 \/ k = 5) by lia.
  destruct Hcases as [-> | [-> | [-> | [-> | [-> | ->]]]]];
    eexists; (split; [exact Hi|]); (split; [lia|]);
    (split; [vm_compute; reflexivity | reflexivity]).
Qed.

Lemma progress_value_exact_witness :
  exists (k : Z) (y : Q),
    score_integer {| quotes := []; score := Finite 3 |} = Some k /\ 0 <= k <= 5 /\
    progress_value (row_of "privacy_info" {| quotes := []; score := Finite 3 |}) =
      Finite y /\ (y == inject_Z (20 * k))%Q.
Proof. apply progress_value_exact. reflexivity. Defined.

(** * The list of sources *)

(** X7.  The entry of the list of sources for a link has as its title the
    link's page title when that is a non-empty string, and otherwise
    "Privacy Policy" for a policy link and "Terms and Conditions" for a
    terms link; so the title is never empty. *)
Theorem link_title_never_empty (links : list AnalysedLink) (i : nat) (l : AnalysedLink) :
  links !! i = Some l ->
  exists item,
    link_items links !! i = Some item /\
    item_title item <> "" /\
    (forall s, pageTitle (link l) = Some s -> s <> "" -> item_title item = s) /\
    (pageTitle (link l) = None \/ pageTitle (link l) = Some "" ->
     item_title item = match type (link l) with
                       | policy => "Privacy Policy"
                       | terms => "Terms and Conditions"
                       end).
Proof.
  intros Hl. exists (link_item i l). unfold link_items.
  rewrite list_lookup_imap, Hl. split; [reflexivity|].
  cbn [item_title link_item]. unfold or_else, getLinkText.
  destruct (pageTitle (link l)) as [s|].
  - destruct (String.eqb_spec s "") as [->|Hne].
    + split; [destruct (type (link l)); discriminate|]. split.
      * intros s' Hs Hne. injection Hs as <-. contradiction.
      * intros _. reflexivity.
    + split; [exact Hne|]. split.
      * intros s' Hs _. injection Hs as <-. reflexivity.
      * intros [H|H]; [discriminate H | injection H as ->; contradiction].
  - split; [destruct (type (link l)); discriminate|]. split.
    + intros s' Hs. discriminate Hs.
    + intros _. reflexivity.
Qed.

Lemma link_title_never_empty_witness :
  exists item,
    link_items [ {| link := tos_link; analysis := None |};
                 {| link := priv_link; analysis := None |} ] !! 0%nat = Some item /\
    item_title item = "Terms and Conditions".
Proof.
  destruct (link_title_never_empty
              [ {| link := tos_link; analysis := None |};
                {| link := priv_link; analysis := None |} ] 0%nat
              {| link := tos_link; analysis := None |} eq_refl)
    as (item & Hi & _ & _ & Hfallback).
  exists item. split; [exact Hi|]. apply Hfallback. left. reflexivity.
Defined.

Lemma is_dash_digit (d : N) : is_dash (pretty_N_char d) = false.
Proof. unfold pretty_N_char. repeat case_match; reflexivity. Qed.

Lemma has_dash_pretty_N_go (x : N) : forall s,
  has_dash s = false -> has_dash (pretty_N_go x s) = false.
Proof.
  induction (N.lt_wf_0 x) as [x _ IH]; intros s Hs.
  assert (Hx : (x = 0 \/ 0 < x)%N) by lia. destruct Hx as [->|Hpos].
  - rewrite pretty_N_go_0. exact Hs.
  - rewrite pretty_N_go_step by exact Hpos. apply IH.
    + apply N.div_lt; lia.
    + cbn [has_dash]. rewrite is_dash_digit. exact Hs.
Qed.

Lemma has_dash_pretty (n : nat) : has_dash (pretty n) = false.
Proof.
  unfold pretty, pretty_nat, pretty, pretty_N.
  destruct (decide (N.of_nat n = 0%N)); [reflexivity|].
  apply has_dash_pretty_N_go. reflexivity.
Qed.

Lemma has_dash_app_dash (h d : string) : has_dash (h ++ "-" ++ d) = true.
Proof.
  induction h as [|c h IH]; [reflexivity|].
  change (has_dash (String c (h ++ "-" ++ d)) = true).
  cbn [has_dash]. rewrite IH. apply orb_true_r.
Qed.

Lemma after_last_dash_app (h d : string) :
  has_dash d = false -> after_last_dash (h ++ "-" ++ d) = d.
Proof.
  intros Hd. induction h as [|c h IH].
  - change ("" ++ "-" ++ d) with (String "-"%char d).
    cbn [after_last_dash]. rewrite Hd. reflexivity.
  - change (String c h ++ "-" ++ d) with (String c (h ++ "-" ++ d)).
    cbn [after_last_dash]. rewrite has_dash_app_dash. exact IH.
Qed.

(** X8.  The keys of the entries of the list of sources,
    [`${link.href}-${index}`], are pairwise distinct, also when several
    links have the same href or an href that itself ends in a dash and
    digits. *)
Theorem link_keys_distinct (links : list AnalysedLink) :
  NoDup (item_key <$> link_items links).
Proof.
  apply NoDup_alt. intros i j key Hi Hj.
  unfold link_items in Hi, Hj.
  rewrite list_lookup_fmap, list_lookup_imap in Hi, Hj.
  destruct (links !! i) as [li|]; [|discriminate].
  destruct (links !! j) as [lj|]; [|discriminate].
  cbn in Hi, Hj. injection Hi as Hi. injection Hj as Hj.
  assert (Hd : after_last_dash key = pretty i) by
    (rewrite <- Hi; apply after_last_dash_app, has_dash_pretty).
  rewrite <- Hj, after_last_dash_app in Hd by apply has_dash_pretty.
  symmetry. apply (inj pretty). exact Hd.
Qed.

(** * More on Promise.all *)

Lemma all_filled_inv {A : Type} (values : list (option A)) (vs : list A) :
  all_filled values = Some vs -> values = Some <$> vs.
Proof.
  revert vs. induction values as [|[v|] values IH]; intros vs H; cbn in H.
  - injection H as <-. reflexivity.
  - destruct (all_filled values) as [vs'|]; [|discriminate].
    injection H as <-. rewrite (IH vs' eq_refl). reflexivity.
  - discriminate.
Qed.

(** Promises that all fulfil never make [Promise.all] reject, and what it
    resolves to does not depend on the order of settlement. *)
Lemma Promise_all_fulfilled_inv {A : Type} (vs : list A) (order : list nat)
    (settled : Completion (list A)) :
  Promise_all order (Returns <$> vs) = Some settled -> settled = Returns vs.
Proof.
  unfold Promise_all. rewrite length_fmap.
  destruct (settle_fulfilled vs order (replicate (length vs) None))
    as (values' & Hs & Hl & Hlook).
  { apply length_replicate. }
  rewrite Hs. destruct (all_filled values') as [ws|] eqn:Hf; [|discriminate].
  intros H. injection H as <-. f_equal.
  apply all_filled_inv in Hf. subst values'.
  rewrite length_fmap in Hl.
  apply list_eq. intros j. specialize (Hlook j).
  rewrite list_lookup_fmap in Hlook.
  destruct (decide (j ∈ order)) as [Hin|Hnin].
  - destruct (ws !! j) as [x|], (vs !! j) as [y|]; cbn in Hlook; congruence.
  - destruct (decide (j < length vs)%nat) as [Hlt|Hge].
    + rewrite lookup_replicate_2 in Hlook by exact Hlt.
      destruct (ws !! j); cbn in Hlook; discriminate.
    + rewrite (proj2 (lookup_ge_None ws j)), (proj2 (lookup_ge_None vs j)) by lia.
      reflexivity.
Qed.

Lemma link_promises_return (ls : list LinkData) : forall fetches,
  exists entries,
    link_promises ls fetches = Returns <$> entries /\
    length entries = length (link_promises ls fetches).
Proof.
  unfold link_promises.
  induction ls as [|l ls IH]; intros [|f fetches]; try (exists []; split; reflexivity).
  destruct (IH fetches) as (entries & He & Hl).
  destruct (analyseLink_returns l f) as (e & Hr & _).
  exists (e :: entries). cbn [zip_with]. rewrite Hr, He. split; [reflexivity|].
  rewrite !length_cons, Hl, He. reflexivity.
Qed.

(** * The listener, whatever the message *)

(** X9.  On a message of the declared type (its [links] an array) the
    listener never ends by an exception, whatever the fetches do.  A
    message whose action is not sendLinks is acknowledged at once with the
    fixed payload and nothing else happens: the state is untouched.  A
    sendLinks message either is still waiting for its batch, nothing done
    yet, or has set the links, cleared the error and then sent the fixed
    acknowledgement, and nothing else. *)
Theorem messageListener_never_rejects (m : ContentScriptMessage) (w : Settlement) :
  (action m <> "sendLinks" ->
   run w (messageListener m) = ([sendResponse {| farewell := "goodbye" |}], Fulfilled) /\
   (advance (messageListener m)).1 = [sendResponse {| farewell := "goodbye" |}] /\
   forall s, run_from w (messageListener m) s = s) /\
  (action m = "sendLinks" ->
   run w (messageListener m) = ([], Pending) \/
   exists entries,
     length entries = length (link_promises (message_links m) (fetches w)) /\
     run w (messageListener m) =
       ([setLinks entries; setError None; sendResponse {| farewell := "goodbye" |}],
        Fulfilled)).
Proof.
  unfold run_from, messageListener.
  destruct (String.eqb_spec (action m) "sendLinks") as [Ha|Hna].
  - split; [intros H; contradiction|]. intros _. cbn [run].
    destruct (link_promises_return (message_links m) (fetches w)) as (entries & He & Hl).
    rewrite He.
    destruct (Promise_all (order w) (Returns <$> entries)) as [settled|] eqn:Hp.
    + apply Promise_all_fulfilled_inv in Hp. subst settled. right.
      exists entries. rewrite <- He. split; [exact Hl | reflexivity].
    + left. reflexivity.
  - split; [|intros H; contradiction]. intros _.
    split; [reflexivity|]. split; [reflexivity|]. intros s. reflexivity.
Qed.

Lemma messageListener_never_rejects_witness :
  run scenario_settlement
    (messageListener {| action := "ping"; message_links := [tos_link] |}) =
    ([sendResponse {| farewell := "goodbye" |}], Fulfilled).
Proof.
  destruct (messageListener_never_rejects
              {| action := "ping"; message_links := [tos_link] |} scenario_settlement)
    as (Hother & _).
  apply Hother. discriminate.
Defined.

(** * Invariants of the event loop *)

Lemma filter_delete_length {A : Type} (P : A -> bool) (l : list A) : forall i x,
  l !! i = Some x ->
  (length (List.filter P (delete i l)) + (if P x then 1 else 0) =
   length (List.filter P l))%nat.
Proof.
  induction l as [|y l IH]; intros [|i] x Hx; try discriminate.
  - injection Hx as ->. cbn. destruct (P x); simpl; lia.
  - change ((y :: l) !! S i) with (l !! i) in Hx.
    change (delete (S i) (y :: l)) with (y :: delete i l).
    specialize (IH i x Hx). cbn [List.filter].
    destruct (P y); cbn [length]; lia.
Qed.

Lemma filter_snoc_length {A : Type} (P : A -> bool) (l : list A) (x : A) :
  length (List.filter P (l ++ [x])) =
  (length (List.filter P l) + (if P x then 1 else 0))%nat.
Proof.
  rewrite List.filter_app, length_app. cbn. destruct (P x); reflexivity.
Qed.

Lemma settled_batch_returns (batch : list LinkData)
    (fetches : list (Completion Response)) (order : list nat)
    (settled : Completion (list AnalysedLink)) :
  length fetches = length batch ->
  Promise_all order (link_promises batch fetches) = Some settled ->
  exists entries, settled = Returns entries /\ length entries = length batch /\
                  link <$> entries = batch.
Proof.
  intros Hlen Hp.
  destruct (link_promises_fulfil batch fetches Hlen) as (entries & He & Hl & _).
  rewrite He in Hp. apply Promise_all_fulfilled_inv in Hp.
  exists entries. split; [exact Hp|]. split; [exact Hl|].
  clear Hp Hl. revert fetches entries Hlen He. unfold link_promises.
  induction batch as [|l batch IH]; intros [|f fetches] [|e entries] Hlen He;
    try discriminate; [reflexivity|].
  cbn [zip_with] in He. rewrite fmap_cons in He. injection He as He1 He2.
  destruct (analyseLink_returns l f) as (e' & Hr & Hlk & _).
  assert (e' = e) by congruence. subst e'.
  rewrite fmap_cons, Hlk. f_equal. apply (IH fetches); [simpl in Hlen; lia | exact He2].
Qed.

Lemma handler_is_listener (ps : list Async) (i : nat) (batch : list LinkData)
    (k : Completion (list AnalysedLink) -> Async) :
  Forall source_await ps -> ps !! i = Some (AwaitAll batch k) ->
  k = messageListener_resume.
Proof.
  intros Hall Hi. rewrite Forall_lookup in Hall.
  destruct (Hall i _ Hi) as [[batch' Heq] | Heq]; [|discriminate].
  injection Heq as _ ->. reflexivity.
Qed.

Lemma handler_is_injection (ps : list Async) (i : nat)
    (k : Completion (option InjectionResponse) -> Async) :
  Forall source_await ps -> ps !! i = Some (AwaitSendMessage k) ->
  k = injectScript_resume.
Proof.
  intros Hall Hi. rewrite Forall_lookup in Hall.
  destruct (Hall i _ Hi) as [[batch' Heq] | Heq]; [discriminate|].
  injection Heq as ->. reflexivity.
Qed.

Lemma step_invariant (c c' : Config) :
  config_invariant c -> step c c' -> config_invariant c'.
Proof.
  intros (Hs & Hh) Hstep. unfold config_invariant in *.
  destruct Hstep as [c m | c | c i batch k fetches order settled Hi Hlen Hp
                    | c i k settled Hi].
  - unfold resume, messageListener.
    destruct (String.eqb (action m) "sendLinks"); cbn.
    + rewrite app_nil_r. split; [|exact Hh].
      apply Forall_app. split; [exact Hs|]. constructor; [|constructor].
      left. eauto.
    + split; [exact Hs|].
      apply Forall_app. split; [exact Hh|]. repeat constructor.
  - unfold resume. cbn. split.
    + apply Forall_app. split; [exact Hs|]. constructor; [|constructor].
      right. reflexivity.
    + apply Forall_app. split; [exact Hh|]. repeat constructor.
  - pose proof (handler_is_listener _ _ _ _ Hs Hi) as ->.
    destruct (settled_batch_returns _ _ _ _ Hlen Hp) as (entries & -> & _).
    unfold resume. cbn. split.
    + apply Forall_delete. exact Hs.
    + apply Forall_app. split; [exact Hh|]. repeat constructor.
  - pose proof (handler_is_injection _ _ _ Hs Hi) as ->.
    assert (Hfin : forall p es,
              advance p = (es, Done) ->
              Forall fixed_acknowledgement es ->
              Forall source_await (suspended (resume p c (delete i (suspended c)))) /\
              Forall fixed_acknowledgement (history (resume p c (delete i (suspended c))))).
    { intros p es Hadv Hack. unfold resume. rewrite Hadv. cbn. split.
      - apply Forall_delete. exact Hs.
      - apply Forall_app. split; assumption. }
    unfold injectScript_resume.
    destruct settled as [response|err].
    + destruct (response_succeeded response).
      * eapply Hfin; [reflexivity | repeat constructor].
      * eapply Hfin; [reflexivity | repeat constructor].
    + eapply Hfin; [reflexivity | repeat constructor].
Qed.

Lemma reachable_invariant (c : Config) : reachable c -> config_invariant c.
Proof.
  induction 1 as [|c c' _ IH Hstep].
  - split; constructor.
  - exact (step_invariant c c' IH Hstep).
Qed.

(** X10.  [injectScript] takes no account of calls already waiting.  Started
    in any reachable configuration it sets [isInjecting], clears the error
    and adds one call in flight; and when any waiting call finishes,
    [isInjecting] becomes false and the scan button is enabled again, also
    while other calls are still waiting.  The links are untouched. *)
Theorem overlapping_injections (c : Config) :
  reachable c ->
  (let c' := resume injectScript c (suspended c) in
   reachable c' /\ isInjecting (panel c') = true /\ error (panel c') = None /\
   injections_in_flight c' = S (injections_in_flight c)) /\
  (forall i k settled,
     suspended c !! i = Some (AwaitSendMessage k) ->
     let c' := resume (k settled) c (delete i (suspended c)) in
     reachable c' /\ isInjecting (panel c') = false /\
     button_disabled (Sidebar_view (panel c')) = false /\
     S (injections_in_flight c') = injections_in_flight c /\
     links (panel c') = links (panel c)).
Proof.
  intros Hc. split.
  - split; [apply (reachable_step c); [exact Hc | apply step_click]|].
    unfold resume, injections_in_flight. cbn.
    split; [reflexivity|]. split; [reflexivity|].
    rewrite filter_snoc_length. cbn. lia.
  - intros i k settled Hi c'.
    split; [apply (reachable_step c); [exact Hc | apply step_message_settled; exact Hi]|].
    destruct (reachable_invariant c Hc) as (Hs & _).
    pose proof (handler_is_injection _ _ _ Hs Hi) as Hk. subst k.
    pose proof (filter_delete_length is_injection _ _ _ Hi) as Hd. cbn in Hd.
    subst c'. unfold injections_in_flight, resume, injectScript_resume.
    destruct settled as [response|err].
    + destruct (response_succeeded response); cbn; repeat split; lia.
    + cbn. repeat split; lia.
Qed.

Lemma clicked_config_reachable : reachable clicked_config.
Proof.
  apply (reachable_step initial_config); [apply reachable_initial|].
  apply step_click.
Qed.

Lemma overlapping_injections_witness :
  injections_in_flight double_clicked_config = 2%nat /\
  isInjecting
    (panel (resume (injectScript_resume (sendMessage no_responder_settlement))
              double_clicked_config
              (delete 0%nat (suspended double_clicked_config)))) = false /\
  injections_in_flight
    (resume (injectScript_resume (sendMessage no_responder_settlement))
       double_clicked_config
       (delete 0%nat (suspended double_clicked_config))) = 1%nat.
Proof.
  destruct (overlapping_injections clicked_config clicked_config_reachable)
    as ((Hr & _ & _ & Hcount) & _).
  split; [exact Hcount|].
  destruct (overlapping_injections double_clicked_config Hr) as (_ & Hfinish).
  destruct (Hfinish 0%nat injectScript_resume (sendMessage no_responder_settlement) eq_refl)
    as (_ & Hfalse & _ & Hless & _).
  split; [exact Hfalse|].
  apply eq_add_S. rewrite Hless. exact Hcount.
Defined.

(** X11.  When the batch of any waiting notification settles, its entries
    replace the displayed links wholesale (one entry per link of that
    notification, in order), the error is cleared, [isInjecting] is left
    alone and the acknowledgement is the last effect.  Nothing tells an
    older notification from a newer one: the batch that settles last is
    the one displayed. *)
Theorem settled_batch_replaces_links (c : Config) (i : nat) (batch : list LinkData)
    (k : Completion (list AnalysedLink) -> Async)
    (fetches : list (Completion Response)) (order : list nat)
    (settled : Completion (list AnalysedLink)) :
  reachable c ->
  suspended c !! i = Some (AwaitAll batch k) ->
  length fetches = length batch ->
  Promise_all order (link_promises batch fetches) = Some settled ->
  let c' := resume (k settled) c (delete i (suspended c)) in
  exists entries,
    settled = Returns entries /\
    link <$> entries = batch /\
    panel c' = {| links := entries; isInjecting := isInjecting (panel c);
                  error := None; results := initial_results |} /\
    history c' =
      (history c ++ [setLinks entries; setError None;
                     sendResponse {| farewell := "goodbye" |}])%list /\
    suspended c' = delete i (suspended c).
Proof.
  intros Hc Hi Hlen Hp c'.
  destruct (reachable_invariant c Hc) as (Hs & _).
  pose proof (handler_is_listener _ _ _ _ Hs Hi) as Hk. subst k.
  destruct (settled_batch_returns _ _ _ _ Hlen Hp) as (entries & -> & _ & Hlk).
  exists entries. split; [reflexivity|]. split; [exact Hlk|].
  subst c'. unfold resume. cbn. rewrite (reachable_results c Hc).
  repeat split.
Qed.

Lemma newer_settled_config_reachable : reachable newer_settled_config.
Proof.
  apply (reachable_step two_pending_config).
  - apply (reachable_step notified_config); [apply notified_config_reachable|].
    apply step_notification.
  - exact (step_batch_settled two_pending_config 1 (message_links single_link_message)
             messageListener_resume (fetches out_of_range_settlement)
             (order out_of_range_settlement)
             (Returns [ {| link := tos_link; analysis := Some out_of_range_analysis |} ])
             eq_refl eq_refl eq_refl).
Qed.

Lemma settled_batch_replaces_links_witness :
  links (panel newer_settled_config) =
    [ {| link := tos_link; analysis := Some out_of_range_analysis |} ] /\
  exists entries,
    link <$> entries = [tos_link; priv_link] /\
    links (panel (resume
                    (messageListener_resume
                       (Returns [ {| link := tos_link; analysis := Some scenario_analysis |};
                                  {| link := priv_link; analysis := None |} ]))
                    newer_settled_config
                    (delete 0%nat (suspended newer_settled_config)))) = entries.
Proof.
  split; [reflexivity|].
  destruct (settled_batch_replaces_links newer_settled_config 0
              (message_links scenario_message) messageListener_resume
              (fetches scenario_settlement) (order scenario_settlement)
              (Returns [ {| link := tos_link; analysis := Some scenario_analysis |};
                         {| link := priv_link; analysis := None |} ])
              newer_settled_config_reachable eq_refl eq_refl eq_refl)
    as (entries & _ & Hlk & Hpanel & _).
  exists entries. split; [exact Hlk|]. rewrite Hpanel. reflexivity.
Defined.

(** * What the panel shows after a handler has run *)




Lemma link_items_href (links : list AnalysedLink) :
  item_href <$> link_items links = (fun l => href (link l)) <$> links.
Proof.
  apply list_eq. intros i. unfold link_items.
  rewrite !list_lookup_fmap, list_lookup_imap.
  destruct (links !! i); reflexivity.
Qed.

(** X13.  After the batch of a waiting notification has settled the panel
    shows no error; for a notification without links it shows "No Content
    Scanned", also if links were displayed before; otherwise it shows the
    score 70 in the moderate class, the four initial categories with their
    scores, and one source per delivered link, in the order delivered,
    failed fetches included. *)
Theorem view_after_batch (c : Config) (i : nat) (batch : list LinkData)
    (k : Completion (list AnalysedLink) -> Async)
    (fetches : list (Completion Response)) (order : list nat)
    (settled : Completion (list AnalysedLink)) :
  reachable c ->
  suspended c !! i = Some (AwaitAll batch k) ->
  length fetches = length batch ->
  Promise_all order (link_promises batch fetches) = Some settled ->
  let v := Sidebar_view (panel (resume (k settled) c (delete i (suspended c)))) in
  banner v = None /\
  button_disabled v = isInjecting (panel c) /\
  (batch = [] -> content v = NoContentScanned) /\
  (batch <> [] ->
   exists rows sources,
     content v = Analysed (Finite 70) "text-blue-600" (Some rows) sources /\
     row_category <$> rows =
       ["account_control"; "data_collection"; "privacy_info"; "account_testing"] /\
     row_score <$> rows = [Finite 3; Finite 2; Finite 4; Finite 5] /\
     item_href <$> sources = href <$> batch).
Proof.
  intros Hc Hi Hlen Hp v.
  destruct (reachable_invariant c Hc) as (Hs & _).
  pose proof (handler_is_listener _ _ _ _ Hs Hi) as Hk. subst k.
  destruct (settled_batch_returns _ _ _ _ Hlen Hp) as (entries & -> & _ & Hlk).
  subst v. unfold resume. cbn [advance messageListener_resume panel].
  cbn [apply_effects fold_left apply_effect].
  unfold Sidebar_view, error_banner. cbn [links isInjecting error results banner
    button_disabled content].
  rewrite (reachable_results c Hc).
  split; [reflexivity|]. split; [reflexivity|]. split.
  - intros ->. destruct entries; [reflexivity | discriminate].
  - intros Hne. destruct entries as [|e entries]; [simpl in Hlk; congruence|].
    rewrite initial_score, initial_class.
    eexists _, _. split; [reflexivity|]. split; [reflexivity|]. split; [reflexivity|].
    rewrite link_items_href, <- Hlk, <- list_fmap_compose. reflexivity.
Qed.

Lemma view_after_batch_witness :
  exists rows sources,
    content (Sidebar_view (panel scenario_config)) =
      Analysed (Finite 70) "text-blue-600" (Some rows) sources /\
    item_href <$> sources = ["https://x.com/tos"; "https://x.com/priv"].
Proof.
  destruct (view_after_batch notified_config 0 (message_links scenario_message)
              messageListener_resume (fetches scenario_settlement)
              (order scenario_settlement)
              (Returns [ {| link := tos_link; analysis := Some scenario_analysis |};
                         {| link := priv_link; analysis := None |} ])
              notified_config_reachable eq_refl eq_refl eq_refl)
    as (_ & _ & _ & Hshow).
  destruct Hshow as (rows & sources & Hc & _ & _ & Hh); [discriminate|].
  exists rows, sources. split; [exact Hc | exact Hh].
Defined.
